(** * 7TV emote collections: a model of [providers/seventv/SeventvEmotes.cpp]

    The development embeds the emote-building code of the 7TV provider
    (variant selection, record construction, visibility policy, the batch
    builder and the three incremental operations) and proves the properties
    stated about it.

    Conventions of the embedding:
    - a C++ [double] is a primitive binary64 float, so comparisons and
      quotients are the IEEE ones the program computes;
    - a [std::shared_ptr<const T>] is the address of the allocation together
      with the immutable object stored there; two pointers are the same
      instance when they are equal, and in particular have the same address;
    - code that can throw or dereference null returns a [Result];
    - the process-wide state (allocator, set of objects that are still
      strongly referenced, the intern cache) is threaded explicitly;
    - one writer runs at a time: an operation is not interleaved with
      another one, and what the environment does to the heap in between
      (allocations, dropped references) is a step of its own. *)

From Stdlib Require Import ZArith Floats List Lia.
From stdpp Require Import strings gmap.
Import ListNotations.

#[local] Set Warnings "-register-all".
Local Open Scope string_scope.
Local Open Scope nat_scope.

(** ** Qt's JSON values *)

Inductive QJsonValue :=
| JUndefined
| JNull
| JBool (b : bool)
| JDouble (d : float)
| JString (s : string)
| JArray (a : list QJsonValue)
| JObject (o : list (string * QJsonValue)).

Abbreviation QJsonArray := (list QJsonValue).
Abbreviation QJsonObject := (list (string * QJsonValue)).

Module Json.

(** [QJsonObject::value(key)], also written [obj[key]]: the member, or
    Undefined when there is none. *)
Fixpoint value (o : QJsonObject) (key : string) : QJsonValue :=
  match o with
  | [] => JUndefined
  | (k, v) :: rest => if String.eqb k key then v else value rest key
  end.

Definition toObject (v : QJsonValue) : QJsonObject :=
  match v with JObject o => o | _ => [] end.

Definition toArray (v : QJsonValue) : QJsonArray :=
  match v with JArray a => a | _ => [] end.

Definition toString (v : QJsonValue) : string :=
  match v with JString s => s | _ => EmptyString end.

Definition toBool (v : QJsonValue) : bool :=
  match v with JBool b => b | _ => false end.

Definition toDouble (v : QJsonValue) : float :=
  match v with JDouble d => d | _ => 0%float end.

(** The integer a double denotes when it is finite and has no fractional
    part. *)
Definition integral (d : float) : option Z :=
  match Prim2SF d with
  | S754_zero _ => Some 0%Z
  | S754_finite s m e =>
      let mag :=
        if (0 <=? e)%Z then Some (Z.pos m * 2 ^ e)%Z
        else if (Z.pos m mod 2 ^ (- e) =? 0)%Z
             then Some (Z.pos m / 2 ^ (- e))%Z
             else None in
      option_map (fun z => if s then (- z)%Z else z) mag
  | _ => None
  end.

Definition fits_int (z : Z) : bool :=
  ((- 2 ^ 31 <=? z) && (z <? 2 ^ 31))%Z.

(** [QJsonValue::toInt(defaultValue)]: the value when it is a number that
    is exactly an [int], the default otherwise. *)
Definition toInt (v : QJsonValue) (defaultValue : Z) : Z :=
  match v with
  | JDouble d =>
      match integral d with
      | Some z => if fits_int z then z else defaultValue
      | None => defaultValue
      end
  | _ => defaultValue
  end.

(** [QJsonArray::operator[](i) const]: Undefined out of range. *)
Definition at_ (a : QJsonArray) (i : nat) : QJsonValue :=
  nth i a JUndefined.

(** [QJsonArray::contains] for a string needle: values of another type
    never compare equal to a string. *)
Definition contains (a : QJsonArray) (needle : string) : bool :=
  existsb (fun v => match v with
                    | JString s => String.eqb s needle
                    | _ => false
                    end) a.

Definition empty {A} (l : list A) : bool :=
  match l with [] => true | _ => false end.

End Json.

(** [static_cast<int>(double)]: truncation toward zero. Outside the range of
    [int] (and for NaN and the infinities) C++ leaves the result undefined;
    the model returns [INT_MIN] there, what x86 conversion produces. No
    property below depends on that choice. *)
Definition static_cast_int (d : float) : Z :=
  match Prim2SF d with
  | S754_zero _ => 0%Z
  | S754_finite s m e =>
      let mag := if (0 <=? e)%Z then (Z.pos m * 2 ^ e)%Z
                 else (Z.pos m / 2 ^ (- e))%Z in
      let z := if s then (- mag)%Z else mag in
      if Json.fits_int z then z else (- 2 ^ 31)%Z
  | _ => (- 2 ^ 31)%Z
  end.

(** ** Exceptions *)

Inductive Exn :=
| out_of_range        (* std::array::at *)
| null_dereference.   (* -> on an empty shared_ptr *)

Inductive Result (A : Type) :=
| Ok (a : A)
| Throw (e : Exn).
Arguments Ok {A} a.
Arguments Throw {A} e.

Definition rbind {A B} (r : Result A) (k : A -> Result B) : Result B :=
  match r with
  | Ok a => k a
  | Throw e => Throw e
  end.

Declare Scope result_scope.
Delimit Scope result_scope with result.
Notation "x <- r ;; k" := (rbind r (fun x => k))
  (at level 100, r at next level, right associativity) : result_scope.

(** ** Images *)

(** Modelled from the spec: [messages/Image.hpp] is not part of the sources.
    An image is either the explicit empty placeholder ([Image::getEmpty()])
    or a remote reference with a scale factor and pixel dimensions
    ([Image::fromUrl(url, scale, size)]); only the placeholder is empty. *)
Inductive Image :=
| Image_empty
| Image_url (url : string) (scale : float) (width height : Z).

(** [ImagePtr]: [None] is the null pointer. *)
Abbreviation ImagePtr := (option Image).

Definition Image_getEmpty : ImagePtr := Some Image_empty.

Definition Image_fromUrl (url : string) (scale : float) (size : Z * Z)
  : ImagePtr :=
  Some (Image_url url scale (fst size) (snd size)).

Definition Image_isEmpty (i : Image) : bool :=
  match i with Image_empty => true | Image_url _ _ _ _ => false end.

(** [p->isEmpty()] *)
Definition ImagePtr_isEmpty (p : ImagePtr) : Result bool :=
  match p with
  | Some i => Ok (Image_isEmpty i)
  | None => Throw null_dereference
  end.

Record ImageSet := mkImageSet {
  getImage1 : ImagePtr;
  getImage2 : ImagePtr;
  getImage3 : ImagePtr
}.

(** Modelled from the spec: [ImageSet{}], the explicitly-empty variant set,
    holds the empty placeholder in every slot ([messages/ImageSet.hpp] is
    not part of the sources). *)
Definition ImageSet_default : ImageSet :=
  mkImageSet Image_getEmpty Image_getEmpty Image_getEmpty.

(** ** Variant selection: [SeventvEmotes::createImageSet] *)

Definition file_format (file : QJsonValue) : string :=
  Json.toString (Json.value (Json.toObject file) "format").

(** The [targetFormat] lambda; [allowAvif] is [ALLOW_AVIF_IMAGES()]. *)
Definition targetFormat (allowAvif : bool) (files : QJsonArray) : string :=
  if negb allowAvif || Json.empty files then "WEBP"
  else
    let first := file_format (Json.at_ files 0) in
    if (length files <? 2)%nat then first
    else
      let second := file_format (Json.at_ files 1) in
      if String.eqb first "AVIF" || String.eqb second "AVIF" then "AVIF"
      else "WEBP".

(** The locals [sizes], [baseWidth] and [nextSize]. *)
Record Slots := mkSlots {
  sizes : list ImagePtr;
  baseWidth : float;
  nextSize : nat
}.

Definition Slots_init : Slots :=
  mkSlots [None; None; None; None] 0%float 0.

(** [sizes.at(i) = x] *)
Definition array_at_put (a : list ImagePtr) (i : nat) (x : ImagePtr)
  : Result (list ImagePtr) :=
  if (i <? length a)%nat then Ok (<[i:=x]> a) else Throw out_of_range.

(** Scale of a file of the given width and the reference width afterwards. *)
Definition scale_of (base width : float) : float * float :=
  if (0 <? base)%float then ((base / width)%float, base)
  else (1%float, width).

Definition file_image (baseUrl : string) (file : QJsonObject) (scale : float)
  : ImagePtr :=
  let width := Json.toDouble (Json.value file "width") in
  Image_fromUrl
    ("https:" ++ baseUrl ++ "/" ++ Json.toString (Json.value file "name"))
    scale
    (static_cast_int width, Json.toInt (Json.value file "height") 16).

(** The [for (auto fileItem : files)] loop. *)
Fixpoint fillSizes (target baseUrl : string) (files : QJsonArray) (st : Slots)
  : Result Slots :=
  match files with
  | [] => Ok st
  | fileItem :: rest =>
      if (length (sizes st) <=? nextSize st)%nat then Ok st
      else
        let file := Json.toObject fileItem in
        if negb (String.eqb (Json.toString (Json.value file "format")) target)
        then fillSizes target baseUrl rest st
        else
          let width := Json.toDouble (Json.value file "width") in
          let '(scale, base') := scale_of (baseWidth st) width in
          let image := file_image baseUrl file scale in
          (sizes' <- array_at_put (sizes st) (nextSize st) image ;;
           fillSizes target baseUrl rest
             (mkSlots sizes' base' (S (nextSize st))))%result
  end.

(** The [for (; nextSize < sizes.size(); nextSize++)] loop; [count] is the
    number of iterations left, [sizes.size() - nextSize]. *)
Fixpoint padSizes (count : nat) (a : list ImagePtr) (next : nat)
  : Result (list ImagePtr) :=
  match count with
  | O => Ok a
  | S count' =>
      (a' <- array_at_put a next Image_getEmpty ;;
       padSizes count' a' (S next))%result
  end.

(** The array [sizes] when control reaches the resolution of the largest
    variant, or [None] when the function has returned the empty set. *)
Definition imageSizes (allowAvif : bool) (emoteData : QJsonObject)
  : Result (option (list ImagePtr)) :=
  let host := Json.toObject (Json.value emoteData "host") in
  let baseUrl := Json.toString (Json.value host "url") in
  let files := Json.toArray (Json.value host "files") in
  let target := targetFormat allowAvif files in
  (st <- fillSizes target baseUrl files Slots_init ;;
   if (nextSize st <? length (sizes st))%nat then
     if (nextSize st =? 0)%nat then Ok None
     else
       a <- padSizes (length (sizes st) - nextSize st) (sizes st)
              (nextSize st) ;;
       Ok (Some a)
   else Ok (Some (sizes st)))%result.

(** [sizes[i]] on the array of four (unchecked access, in range). *)
Definition slot (a : list ImagePtr) (i : nat) : ImagePtr :=
  default None (a !! i).

(** [largest = sizes[3]; if (!largest || largest->isEmpty()) largest =
    sizes[2];]: the null test guards the dereference. *)
Definition resolveLargest (a : list ImagePtr) : ImagePtr :=
  let largest := slot a 3 in
  match largest with
  | None => slot a 2
  | Some i => if Image_isEmpty i then slot a 2 else largest
  end.

Definition createImageSet (allowAvif : bool) (emoteData : QJsonObject)
  : Result ImageSet :=
  (r <- imageSizes allowAvif emoteData ;;
   match r with
   | None => Ok ImageSet_default
   | Some a => Ok (mkImageSet (slot a 0) (slot a 1) (resolveLargest a))
   end)%result.

(** ** Emote records and shared pointers *)

Module Emote.
Record t := mk {
  name : string;
  images : ImageSet;
  tooltip : string;
  homePage : string;
  zeroWidth : bool;
  id : string;
  author : string;
  baseName : option string
}.
End Emote.

(** [std::shared_ptr<const T>]: where the object lives and what it is. *)
Record shared_ptr (T : Type) := mk_shared {
  address : nat;
  pointee : T
}.
Arguments mk_shared {T} address pointee.
Arguments address {T} s.
Arguments pointee {T} s.

Abbreviation EmotePtr := (shared_ptr Emote.t).
Abbreviation EmoteMap := (gmap string EmotePtr).

(** [Atomic<std::shared_ptr<const EmoteMap>>]: the cell holds the pointer to
    the published snapshot; [get] reads it and [set] replaces it. *)
Abbreviation Atomic := (shared_ptr EmoteMap).

Inductive SeventvEmoteSetKind := Global | Personal | Channel.

Record Settings := mkSettings {
  ALLOW_AVIF_IMAGES : bool;
  showUnlistedSevenTVEmotes : bool
}.

Module EmoteAddDispatch.
Record t := mk { emoteJson : QJsonObject }.
End EmoteAddDispatch.

Module EmoteUpdateDispatch.
Record t := mk { emoteID : string; emoteName : string }.
End EmoteUpdateDispatch.

Module EmoteRemoveDispatch.
Record t := mk { emoteID : string; emoteName : string }.
End EmoteRemoveDispatch.

Module CreateEmoteResult.
Record t := mk {
  emote : Emote.t;
  id : string;
  name : string;
  hasImages : bool
}.
End CreateEmoteResult.

(** ** Process state: allocator, liveness, intern cache *)

Record Heap := mkHeap {
  next_address : nat;             (* the next allocation *)
  live : gset nat;                (* objects with a strong reference left *)
  cache : gmap string EmotePtr    (* the static [cache] of [cachedOrMake] *)
}.

Definition M (A : Type) : Type := Heap -> Result (A * Heap).

Definition mret {A} (a : A) : M A := fun h => Ok (a, h).

Definition mbind {A B} (c : M A) (k : A -> M B) : M B :=
  fun h => match c h with
           | Ok (a, h') => k a h'
           | Throw e => Throw e
           end.

Definition lift {A} (r : Result A) : M A :=
  fun h => match r with
           | Ok a => Ok (a, h)
           | Throw e => Throw e
           end.

Declare Scope heap_scope.
Delimit Scope heap_scope with heap.
Notation "x <- c ;; k" := (mbind c (fun x => k))
  (at level 100, c at next level, right associativity) : heap_scope.

(** [std::make_shared<T>(x)] *)
Definition make_shared {T} (x : T) : M (shared_ptr T) :=
  fun h =>
    Ok (mk_shared (next_address h) x,
        mkHeap (S (next_address h)) ({[next_address h]} ∪ live h) (cache h)).

(** The last strong reference to the object at [a] goes away. Outside the
    batch builder this is the move of the environment: a reader drops a
    snapshot, a caller drops a handle, a replaced snapshot is destroyed
    once an operation has returned. *)
Definition release (a : nat) (h : Heap) : Heap :=
  mkHeap (next_address h) (live h ∖ {[a]}) (cache h).

(** [std::weak_ptr::lock] *)
Definition lock (h : Heap) (w : EmotePtr) : option EmotePtr :=
  if decide (address w ∈ live h) then Some w else None.

(** Modelled from the spec: [cachedOrMakeEmotePtr] ([messages/Emote.cpp]) is
    not part of the sources. Look up the identifier; a live entry is
    returned and the candidate is ignored, even if its fields differ;
    otherwise the candidate is stored with weak ownership and a strong
    handle to it is returned. *)
Definition cachedOrMakeEmotePtr (emote : Emote.t) (id : string) : M EmotePtr :=
  fun h =>
    match cache h !! id ≫= lock h with
    | Some shared => Ok (shared, h)
    | None =>
        let shared := mk_shared (next_address h) emote in
        Ok (shared,
            mkHeap (S (next_address h)) ({[next_address h]} ∪ live h)
              (<[id:=shared]> (cache h)))
    end.

Definition cachedOrMake (emote : Emote.t) (id : string) : M EmotePtr :=
  cachedOrMakeEmotePtr emote id.

(** Modelled from the spec: [EmoteMap::findEmote] ([messages/Emote.cpp]) is
    not part of the sources. The record is located by either display name
    or identifier: the entry stored under the name, else an entry whose
    record has the identifier. The result is the iterator: key and value.
    The spec does not say whether an entry found under the name must carry
    the identifier as well (one of its tests, a removal with an unknown
    identifier, suggests that it must). The statements that go through
    [findEmote] take what it returns as given, or look a record up under
    its own name and identifier, or under a name that is not a key: there
    the two readings agree. *)
Definition findEmote (m : EmoteMap) (emoteNameHint emoteID : string)
  : option (string * EmotePtr) :=
  match m !! emoteNameHint with
  | Some p => Some (emoteNameHint, p)
  | None =>
      List.find (fun kp => String.eqb (Emote.id (pointee (snd kp))) emoteID)
        (map_to_list m)
  end.

(** [emotes[name] = ptr] in the batch builder. The pointer stored under the
    name before, if any, loses that reference, and its record goes away
    with it unless it is referenced from outside the build or is stored in
    the collection under another name as well. [outside] holds the
    addresses referenced from outside the build. *)
Definition still_referenced (outside : gset nat) (emotes : EmoteMap)
    (old : EmotePtr) : bool :=
  bool_decide (address old ∈ outside)
  || existsb (fun kq => Nat.eqb (address (snd kq)) (address old))
       (map_to_list emotes).

Definition assign (outside : gset nat) (emotes : EmoteMap) (name : string)
    (ptr : EmotePtr) : M EmoteMap :=
  fun h =>
    let emotes' := <[name:=ptr]> emotes in
    match emotes !! name with
    | Some old =>
        if still_referenced outside emotes' old then Ok (emotes', h)
        else Ok (emotes', release (address old) h)
    | None => Ok (emotes', h)
    end.

(** [makeConditionedOptional] ([util/Helpers.hpp]) *)
Definition makeConditionedOptional {A} (condition : bool) (value : A)
  : option A :=
  if condition then Some value else None.

(** ** Record construction *)

Definition EMOTE_LINK_FORMAT (id : string) : string :=
  "https://7tv.app/emotes/" ++ id.

Definition kindToString (kind : SeventvEmoteSetKind) : string :=
  match kind with
  | Global => "Global"
  | Personal => "Personal"
  | Channel => "Channel"
  end.

Definition author_or_deleted (author : string) : string :=
  if String.eqb author EmptyString then "<deleted>" else author.

Definition createTooltip (name author : string) (kind : SeventvEmoteSetKind)
  : string :=
  name ++ "<br>" ++ kindToString kind ++ " 7TV Emote<br>By: "
       ++ author_or_deleted author.

Definition createAliasedTooltip (name baseName author : string)
    (kind : SeventvEmoteSetKind) : string :=
  name ++ "<br>Alias of " ++ baseName ++ "<br>" ++ kindToString kind
       ++ " 7TV Emote<br>By: " ++ author_or_deleted author.

Definition kind_is_Personal (kind : SeventvEmoteSetKind) : bool :=
  match kind with Personal => true | _ => false end.

(** [oldEmote->baseName.has_value() && dispatch.emoteName ==
    oldEmote->baseName->string] *)
Definition toNonAliased (oldEmote : Emote.t) (dispatch : EmoteUpdateDispatch.t)
  : bool :=
  match Emote.baseName oldEmote with
  | Some b => String.eqb (EmoteUpdateDispatch.emoteName dispatch) b
  | None => false
  end.

(** The record built by [createUpdatedEmote], before it is allocated. *)
Definition updatedEmote (oldEmote : Emote.t) (dispatch : EmoteUpdateDispatch.t)
    (kind : SeventvEmoteSetKind) : Emote.t :=
  let newName := EmoteUpdateDispatch.emoteName dispatch in
  let toNonAliased := toNonAliased oldEmote dispatch in
  let baseName := default (Emote.name oldEmote) (Emote.baseName oldEmote) in
  Emote.mk newName (Emote.images oldEmote)
    (if toNonAliased
     then createTooltip newName (Emote.author oldEmote) kind
     else createAliasedTooltip newName baseName (Emote.author oldEmote) kind)
    (Emote.homePage oldEmote) (Emote.zeroWidth oldEmote) (Emote.id oldEmote)
    (Emote.author oldEmote)
    (makeConditionedOptional (negb toNonAliased) baseName).

Definition createUpdatedEmote (oldEmote : EmotePtr)
    (dispatch : EmoteUpdateDispatch.t) (kind : SeventvEmoteSetKind)
  : M EmotePtr :=
  make_shared (updatedEmote (pointee oldEmote) dispatch kind).

(** ** Incremental operations that do not read the payload flags

    [map.set] makes the cell drop its reference to the snapshot it
    replaces. Whether that snapshot, and the records only it holds, go away
    at that point depends on the readers that still hold it, which an
    operation does not know. The operations record the allocations they
    make and no [release]: the set of live objects after an operation is an
    upper bound, the dropped reference is a [release] step of the
    environment, and nothing is stated about what is alive once an
    incremental operation has returned. *)

Definition updateEmote (map : Atomic) (dispatch : EmoteUpdateDispatch.t)
    (kind : SeventvEmoteSetKind) : M (option EmotePtr * Atomic) :=
  let oldMap := map in
  match findEmote (pointee oldMap) (EmoteUpdateDispatch.emoteName dispatch)
          (EmoteUpdateDispatch.emoteID dispatch) with
  | None => mret (None, map)
  | Some (_, oldEmote) =>
      let updatedMap := pointee map in
      let updatedMap := delete (Emote.name (pointee oldEmote)) updatedMap in
      (emote <- createUpdatedEmote oldEmote dispatch kind ;;
       let updatedMap := <[Emote.name (pointee emote) := emote]> updatedMap in
       published <- make_shared updatedMap ;;
       mret (Some emote, published))%heap
  end.

Definition removeEmote (map : Atomic) (dispatch : EmoteRemoveDispatch.t)
  : M (option EmotePtr * Atomic) :=
  let updatedMap := pointee map in
  match findEmote updatedMap (EmoteRemoveDispatch.emoteName dispatch)
          (EmoteRemoveDispatch.emoteID dispatch) with
  | None => mret (None, map)
  | Some (key, emote) =>
      let updatedMap := delete key updatedMap in
      (published <- make_shared updatedMap ;;
       mret (Some emote, published))%heap
  end.

(** ** Auxiliary definitions for the statements *)

Definition file_width (file : QJsonObject) : float :=
  Json.toDouble (Json.value file "width").

Definition matching (target : string) (files : QJsonArray) : list QJsonObject :=
  List.filter
    (fun file => String.eqb (Json.toString (Json.value file "format")) target)
    (List.map Json.toObject files).

Definition Slots_ok (st : Slots) : Prop :=
  length (sizes st) = 4 ∧ nextSize st ≤ 4 ∧
  ∀ i, i < nextSize st →
       ∃ img, sizes st !! i = Some (Some img) ∧ Image_isEmpty img = false.

Definition image_scale (p : ImagePtr) : option float :=
  match p with
  | Some (Image_url _ scale _ _) => Some scale
  | _ => None
  end.

Definition host_files (emoteData : QJsonObject) : QJsonArray :=
  Json.toArray (Json.value (Json.toObject (Json.value emoteData "host")) "files").

Definition host_url (emoteData : QJsonObject) : string :=
  Json.toString (Json.value (Json.toObject (Json.value emoteData "host")) "url").

Definition sample_file (format : string) (width : float) : QJsonValue :=
  JObject [("format", JString format); ("width", JDouble width)].

Definition sample_data (files : QJsonArray) : QJsonObject :=
  [("host", JObject [("files", JArray files)])].

Definition variant_fallback : QJsonObject :=
  sample_data [sample_file "WEBP" 1; sample_file "WEBP" 2; sample_file "WEBP" 3].

Definition zero_width_first : QJsonObject :=
  sample_data [sample_file "WEBP" 0; sample_file "WEBP" 2].

Definition single_png : QJsonObject :=
  sample_data [sample_file "PNG" 1].


Definition entry_data (activeEmote : QJsonObject) : QJsonObject :=
  Json.toObject (Json.value activeEmote "data").

Definition entry_id (activeEmote : QJsonObject) : string :=
  Json.toString (Json.value activeEmote "id").

Definition entry_name (activeEmote : QJsonObject) : string :=
  Json.toString (Json.value activeEmote "name").


(** The flag tests of the 7TV API, used for the sample inputs: ZeroWidth is
    bit 0 of an active emote's flags, ContentTwitchDisallowed is bit 24 of
    an emote's flags. *)
Definition sample_has_ZeroWidth (flags : Z) : bool := Z.testbit flags 0.
Definition sample_has_ContentTwitchDisallowed (flags : Z) : bool :=
  Z.testbit flags 24.

Definition sample_settings : Settings := mkSettings true false.

(** A listed entry with one WEBP file. *)
Definition sample_entry (id name baseName : string) : QJsonObject :=
  [("id", JString id); ("name", JString name);
   ("data", JObject [("name", JString baseName); ("listed", JBool true);
                     ("host", JObject [("url", JString "//cdn.7tv.app/emote");
                                       ("files", JArray [JObject
                                          [("format", JString "WEBP");
                                           ("name", JString "1x.webp");
                                           ("width", JDouble 32);
                                           ("height", JDouble 32)]])])])].

(** An aliased record: shown as pog, an alias of poggers. *)
Definition sample_alias : Emote.t :=
  Emote.mk "pog" ImageSet_default
    (createAliasedTooltip "pog" "poggers" EmptyString Channel)
    (EMOTE_LINK_FORMAT "1") false "1" EmptyString (Some "poggers").

Definition sample_heap : Heap := mkHeap 2 {[0; 1]} ∅.

Definition sample_cell : Atomic :=
  mk_shared 1 (<["pog" := mk_shared 0 sample_alias]> ∅).

Definition empty_heap : Heap := mkHeap 1 {[0]} ∅.

(** The cell of a freshly constructed provider: an empty collection. *)
Definition empty_cell : Atomic := mk_shared 0 ∅.

(** ** The heap over time *)

(** Addresses in use lie below the allocator's next address, and a cache
    entry is filed under the identifier of its record. *)
Definition heap_wf (h : Heap) : Prop :=
  (∀ a, a ∈ live h → a < next_address h) ∧
  (∀ id p, cache h !! id = Some p →
           address p < next_address h ∧ Emote.id (pointee p) = id).

(** What can happen to the heap between two observations: a record is
    materialized through the intern cache under its identifier, an object
    is allocated, or the last strong reference to an object is dropped. *)
Inductive step : Heap → Heap → Prop :=
| step_intern emote p h h' :
    cachedOrMake emote (Emote.id emote) h = Ok (p, h') → step h h'
| step_make_shared (T : Type) (x : T) p h h' :
    make_shared x h = Ok (p, h') → step h h'
| step_release a h :
    step h (release a h).

(** [p] is the record the cache holds for [id] for as long as it lives. *)
Definition interned (id : string) (p : EmotePtr) (h : Heap) : Prop :=
  address p < next_address h ∧
  (address p ∈ live h → cache h !! id = Some p).

(** Every stored pointer is the live cache entry of its identifier. *)
Definition from_cache (m : EmoteMap) (h : Heap) : Prop :=
  ∀ k p, m !! k = Some p →
         cache h !! Emote.id (pointee p) = Some p ∧ address p ∈ live h.

(** ** Further definitions: records, channel loads *)

(** The tooltip that goes with a record's name, base name and author. *)
Definition tooltip_of (e : Emote.t) (kind : SeventvEmoteSetKind) : string :=
  match Emote.baseName e with
  | Some b => createAliasedTooltip (Emote.name e) b (Emote.author e) kind
  | None => createTooltip (Emote.name e) (Emote.author e) kind
  end.

Definition CHANNEL_HAS_NO_EMOTES : string :=
  "This channel has no 7TV channel emotes.".

(** The third argument of the callback of [loadChannelEmotes]: the values
    of the braced initializer, in its order. *)
Record ChannelInfo := mkChannelInfo {
  userID : string;
  emoteSetID : string;
  twitchConnectionIndex : nat
}.

(** The loop over [user["connections"]] in [loadChannelEmotes]: count up
    to the first connection whose platform is TWITCH. *)
Fixpoint connectionIdx_from (connections : QJsonArray) (connectionIdx : nat)
  : nat :=
  match connections with
  | [] => connectionIdx
  | conn :: rest =>
      if String.eqb
           (Json.toString (Json.value (Json.toObject conn) "platform"))
           "TWITCH"
      then connectionIdx
      else connectionIdx_from rest (S connectionIdx)
  end.

(** The messages added to the channel at the end of the success handler of
    [loadChannelEmotes]; [channelAlive] is whether [channel.lock()] gives a
    channel. *)
Definition reloadMessages (channelAlive manualRefresh hasEmotes : bool)
  : list string :=
  if negb channelAlive then []
  else if manualRefresh
       then if hasEmotes then ["7TV channel emotes reloaded."]
            else [CHANNEL_HAS_NO_EMOTES]
       else [].

(** The error handler of [loadChannelEmotes]: the messages added to the
    channel. [status] is [result.status()] and [errorString] is
    [result.formatError()]. *)
Definition loadChannelEmotes_onError (channelAlive manualRefresh : bool)
    (status : option Z) (errorString : string) : list string :=
  if negb channelAlive then []
  else
    match status with
    | Some 404%Z => if manualRefresh then [CHANNEL_HAS_NO_EMOTES] else []
    | _ =>
        ["Failed to fetch 7TV channel emotes. (Error: " ++ errorString ++ ")"]
    end.

(** The flag test of the 7TV API on an emote set, for the sample inputs:
    Personal is bit 2 of the set's flags. *)
Definition sample_has_PersonalSet (flags : Z) : bool := Z.testbit flags 2.

(** Sample payloads for the channel load. *)
Definition sample_connections : QJsonArray :=
  [JObject [("platform", JString "DISCORD")];
   JObject [("platform", JString "TWITCH")];
   JObject [("platform", JString "YOUTUBE")]].

Definition sample_user_json (emotes : QJsonArray) : QJsonObject :=
  [("emote_set", JObject [("id", JString "set1"); ("emotes", JArray emotes)]);
   ("user", JObject [("id", JString "user1");
                     ("connections", JArray sample_connections)])].

(** A file entry with a name, for the variant samples. *)
Definition sample_named_file (name : string) (width : float) : QJsonValue :=
  JObject [("format", JString "WEBP"); ("name", JString name);
           ("width", JDouble width)].

Definition sample_five_files : QJsonArray :=
  [sample_named_file "1x" 32; sample_named_file "2x" 64;
   sample_named_file "3x" 96; sample_named_file "4x" 128;
   sample_named_file "5x" 160].

(** A base record: shown under its own name. *)
Definition sample_base : Emote.t :=
  Emote.mk "poggers" ImageSet_default
    (createTooltip "poggers" EmptyString Channel)
    (EMOTE_LINK_FORMAT "1") false "1" EmptyString None.


(** A record that can be shown: its primary image is there and is not the
    empty placeholder. *)
Definition has_image1 (e : Emote.t) : Prop :=
  ∃ img, getImage1 (Emote.images e) = Some img ∧ Image_isEmpty img = false.

(** Every record the intern cache holds can be shown. Only the batch
    builder files records in the cache, after its test on [hasImages]: this
    holds when the process starts, with an empty cache, and every build
    keeps it; the incremental operations leave the cache alone. *)
Definition cache_has_images (h : Heap) : Prop :=
  ∀ id p, cache h !! id = Some p → has_image1 (pointee p).

(** ** The reuse decision of the intern cache *)

(** Modelled from the spec: the test by which [cachedOrMakeEmotePtr], which
    is not part of the sources, hands back a live cache entry. The spec
    words it in two ways. In its section on the cache a live entry is
    returned whatever the candidate, which is [cachedOrMakeEmotePtr] above.
    In its overview, data model and testable properties the cache
    deduplicates identity-equivalent records: the shared instance is
    returned for a candidate equal to it in every field. Here the test is
    left open: [reuse cached candidate] says whether the live entry is
    handed back; if not, the candidate is allocated and takes its place in
    the cache. *)
Definition cachedOrMakeEmotePtr_by (reuse : Emote.t → Emote.t → bool)
    (emote : Emote.t) (id : string) : M EmotePtr :=
  fun h =>
    let fresh :=
      let shared := mk_shared (next_address h) emote in
      Ok (shared,
          mkHeap (S (next_address h)) ({[next_address h]} ∪ live h)
            (<[id:=shared]> (cache h))) in
    match cache h !! id ≫= lock h with
    | Some shared => if reuse (pointee shared) emote then Ok (shared, h)
                     else fresh
    | None => fresh
    end.





(** ** Code that reads the payload flags *)

Section Flags.

(** [SeventvEmotes.hpp], with the flag enumerations, and [FlagsEnum::has]
    are not part of the sources: the two tests the code makes on an
    integer flag word are parameters. *)
Variable has_ZeroWidth : Z -> bool.
Variable has_ContentTwitchDisallowed : Z -> bool.

Definition isZeroWidthActive (activeEmote : QJsonObject) : bool :=
  has_ZeroWidth (Json.toInt (Json.value activeEmote "flags") 0).

Definition checkEmoteVisibility (settings : Settings)
    (emoteData : QJsonObject) (kind : SeventvEmoteSetKind) : bool :=
  if negb (Json.toBool (Json.value emoteData "listed"))
     && negb (showUnlistedSevenTVEmotes settings)
  then false
  else if kind_is_Personal kind
          && negb (Json.contains
                     (Json.toArray (Json.value emoteData "state"))
                     "PERSONAL")
  then false
  else negb (has_ContentTwitchDisallowed
               (Json.toInt (Json.value emoteData "flags") 0)).

Definition createEmote (settings : Settings)
    (activeEmote emoteData : QJsonObject) (kind : SeventvEmoteSetKind)
  : Result CreateEmoteResult.t :=
  let emoteId := Json.toString (Json.value activeEmote "id") in
  let emoteName := Json.toString (Json.value activeEmote "name") in
  let author :=
    Json.toString
      (Json.value (Json.toObject (Json.value emoteData "owner"))
         "display_name") in
  let baseEmoteName := Json.toString (Json.value emoteData "name") in
  let zeroWidth := isZeroWidthActive activeEmote in
  let aliasedName := negb (String.eqb emoteName baseEmoteName) in
  let tooltip :=
    if aliasedName
    then createAliasedTooltip emoteName baseEmoteName author kind
    else createTooltip emoteName author kind in
  (imageSet <- createImageSet (ALLOW_AVIF_IMAGES settings) emoteData ;;
   let emote :=
     Emote.mk emoteName imageSet tooltip (EMOTE_LINK_FORMAT emoteId)
       zeroWidth emoteId author
       (makeConditionedOptional aliasedName baseEmoteName) in
   empty1 <- ImagePtr_isEmpty (getImage1 (Emote.images emote)) ;;
   Ok (CreateEmoteResult.mk emote emoteId emoteName (negb empty1)))%result.

(** The body of the loop of [parseEmotes], over the entries left. *)
Fixpoint parseEmotes_loop (settings : Settings) (kind : SeventvEmoteSetKind)
    (outside : gset nat) (entries : QJsonArray) (emotes : EmoteMap)
  : M EmoteMap :=
  match entries with
  | [] => mret emotes
  | activeEmoteJson :: rest =>
      let activeEmote := Json.toObject activeEmoteJson in
      let emoteData := Json.toObject (Json.value activeEmote "data") in
      if Json.empty emoteData
         || negb (checkEmoteVisibility settings emoteData kind)
      then parseEmotes_loop settings kind outside rest emotes
      else
        (result <- lift (createEmote settings activeEmote emoteData kind) ;;
         if negb (CreateEmoteResult.hasImages result)
         then parseEmotes_loop settings kind outside rest emotes
         else
           ptr <- cachedOrMake (CreateEmoteResult.emote result)
                    (CreateEmoteResult.id result) ;;
           emotes' <- assign outside emotes (CreateEmoteResult.name result)
                        ptr ;;
           parseEmotes_loop settings kind outside rest emotes')%heap
  end.

(** Whatever lives when the build starts is referenced from outside it:
    the build starts from the empty collection. *)
Definition parseEmotes (settings : Settings) (emoteSetEmotes : QJsonArray)
    (kind : SeventvEmoteSetKind) : M EmoteMap :=
  fun h => parseEmotes_loop settings kind (live h) emoteSetEmotes ∅ h.

(** As for Update and Remove, the reference that [map.set] drops is not
    recorded. *)
Definition addEmote (settings : Settings) (map : Atomic)
    (dispatch : EmoteAddDispatch.t) (kind : SeventvEmoteSetKind)
  : M (option EmotePtr * Atomic) :=
  let emoteData :=
    Json.toObject
      (Json.value (EmoteAddDispatch.emoteJson dispatch) "data") in
  if Json.empty emoteData
     || negb (checkEmoteVisibility settings emoteData kind)
  then mret (None, map)
  else
    let updatedMap := pointee map in
    (result <- lift (createEmote settings
                       (EmoteAddDispatch.emoteJson dispatch) emoteData
                       kind) ;;
     if negb (CreateEmoteResult.hasImages result)
     then mret (None, map)
     else
       emote <- make_shared (CreateEmoteResult.emote result) ;;
       let updatedMap :=
         <[CreateEmoteResult.name result := emote]> updatedMap in
       published <- make_shared updatedMap ;;
       mret (Some emote, published))%heap.

(** What the builder and Add decide about one entry: the record to store,
    or nothing when the entry is skipped. *)
Definition accepted (settings : Settings) (kind : SeventvEmoteSetKind)
    (activeEmote : QJsonObject) : option CreateEmoteResult.t :=
  let emoteData := entry_data activeEmote in
  if Json.empty emoteData
     || negb (checkEmoteVisibility settings emoteData kind)
  then None
  else match createEmote settings activeEmote emoteData kind with
       | Ok r => if CreateEmoteResult.hasImages r then Some r else None
       | Throw _ => None
       end.


(** [SeventvEmoteSetFlag::Personal] is declared in the same header: the
    test on the flag word of an emote set is a parameter as well. *)
Variable has_PersonalSet : Z -> bool.

(** The success handler of [loadChannelEmotes]. The result holds the
    arguments of the callback, when it is called, and the messages added to
    the channel. *)
Definition loadChannelEmotes_onSuccess (settings : Settings)
    (json : QJsonObject) (channelAlive manualRefresh : bool)
  : M (option (EmoteMap * ChannelInfo) * list string) :=
  let emoteSet := Json.toObject (Json.value json "emote_set") in
  let parsedEmotes := Json.toArray (Json.value emoteSet "emotes") in
  (emoteMap <- parseEmotes settings parsedEmotes Channel ;;
   let hasEmotes := negb (Nat.eqb (size emoteMap) 0) in
   let called :=
     if hasEmotes then
       let user := Json.toObject (Json.value json "user") in
       let connectionIdx :=
         connectionIdx_from
           (Json.toArray (Json.value user "connections")) 0 in
       Some (emoteMap,
             mkChannelInfo (Json.toString (Json.value user "id"))
               (Json.toString (Json.value emoteSet "id")) connectionIdx)
     else None in
   mret (called, reloadMessages channelAlive manualRefresh hasEmotes))%heap.

(** The success handler of [getEmoteSet]: the arguments of the callback. *)
Definition getEmoteSet_kind (json : QJsonObject) : SeventvEmoteSetKind :=
  if has_PersonalSet (Json.toInt (Json.value json "flags") 0)
  then Personal else Channel.

Definition getEmoteSet_onSuccess (settings : Settings) (json : QJsonObject)
  : M (EmoteMap * string) :=
  let parsedEmotes := Json.toArray (Json.value json "emotes") in
  let kind := getEmoteSet_kind json in
  (emoteMap <- parseEmotes settings parsedEmotes kind ;;
   mret (emoteMap, Json.toString (Json.value json "name")))%heap.

(** The success handler of [loadGlobalEmotes] followed by
    [setGlobalEmotes]: the new content of the cell [global_]. The branch
    taken when global emotes are disabled publishes [EMPTY_EMOTE_MAP], a
    constant that is not part of the sources, and is left out. *)
Definition loadGlobalEmotes_onSuccess (settings : Settings)
    (json : QJsonObject) : M Atomic :=
  let parsedEmotes := Json.toArray (Json.value json "emotes") in
  (emoteMap <- parseEmotes settings parsedEmotes Global ;;
   make_shared emoteMap)%heap.

(** [SeventvEmotes::globalEmote] on the cell [global_]. *)
Definition globalEmote (global_ : Atomic) (name : string) : option EmotePtr :=
  pointee global_ !! name.

(** Where a record stored by a build comes from: the intern cache held it
    under the identifier when the build started, or the build allocated it
    from the record built for an accepted entry of the batch with that
    identifier. *)
Definition materialized_for (settings : Settings) (kind : SeventvEmoteSetKind)
    (batch : QJsonArray) (h : Heap) (id : string) (p : EmotePtr) : Prop :=
  cache h !! id = Some p ∨
  (next_address h ≤ address p ∧
   ∃ entry r, entry ∈ batch ∧
              accepted settings kind (Json.toObject entry) = Some r ∧
              CreateEmoteResult.id r = id ∧
              pointee p = CreateEmoteResult.emote r).

(** [parseEmotes] with the reuse decision of the cache left open: the loop
    of [parseEmotes_loop], calling [cachedOrMakeEmotePtr_by reuse]. *)
Fixpoint parseEmotes_loop_by (reuse : Emote.t → Emote.t → bool)
    (settings : Settings) (kind : SeventvEmoteSetKind) (outside : gset nat)
    (entries : QJsonArray) (emotes : EmoteMap) : M EmoteMap :=
  match entries with
  | [] => mret emotes
  | activeEmoteJson :: rest =>
      let activeEmote := Json.toObject activeEmoteJson in
      let emoteData := Json.toObject (Json.value activeEmote "data") in
      if Json.empty emoteData
         || negb (checkEmoteVisibility settings emoteData kind)
      then parseEmotes_loop_by reuse settings kind outside rest emotes
      else
        (result <- lift (createEmote settings activeEmote emoteData kind) ;;
         if negb (CreateEmoteResult.hasImages result)
         then parseEmotes_loop_by reuse settings kind outside rest emotes
         else
           ptr <- cachedOrMakeEmotePtr_by reuse
                    (CreateEmoteResult.emote result)
                    (CreateEmoteResult.id result) ;;
           emotes' <- assign outside emotes (CreateEmoteResult.name result)
                        ptr ;;
           parseEmotes_loop_by reuse settings kind outside rest emotes')%heap
  end.

Definition parseEmotes_by (reuse : Emote.t → Emote.t → bool)
    (settings : Settings) (emoteSetEmotes : QJsonArray)
    (kind : SeventvEmoteSetKind) : M EmoteMap :=
  fun h => parseEmotes_loop_by reuse settings kind (live h) emoteSetEmotes ∅ h.


(** ** Variant selection: the slots and the chosen format *)

Lemma array_at_put_lt a i x :
  i < length a → array_at_put a i x = Ok (<[i:=x]> a).
Proof.
  intros H. unfold array_at_put.
  destruct (Nat.ltb_spec i (length a)); [done | lia].
Qed.

Lemma Slots_ok_put st img base :
  Slots_ok st → nextSize st < 4 → Image_isEmpty img = false →
  Slots_ok (mkSlots (<[nextSize st := Some img]> (sizes st)) base
              (S (nextSize st))).
Proof.
  intros (Hlen & Hn & Hfill) Hlt Himg. repeat split; simpl.
  - by rewrite length_insert.
  - lia.
  - intros i Hi. destruct (decide (i = nextSize st)) as [->|Hne].
    + exists img. split; [|done]. apply list_lookup_insert_eq. lia.
    + rewrite list_lookup_insert_ne by done. apply Hfill. lia.
Qed.

Lemma fillSizes_ok target url files st :
  Slots_ok st →
  ∃ st', fillSizes target url files st = Ok st' ∧ Slots_ok st'
         ∧ nextSize st ≤ nextSize st'.
Proof.
  revert st. induction files as [|fileItem rest IH]; intros st Hok.
  - exists st. split; [done|]. split; [done|lia].
  - cbn [fillSizes].
    destruct (Nat.leb_spec (length (sizes st)) (nextSize st)) as [Hfull|Hroom].
    + exists st. split; [done|]. split; [done|lia].
    + destruct (negb _).
      * by apply IH.
      * destruct (scale_of _ _) as [scale base'].
        assert (Hlt : nextSize st < 4) by (destruct Hok as (Hl & _); lia).
        rewrite array_at_put_lt by (destruct Hok as (Hl & _); lia). simpl.
        destruct (IH (mkSlots (<[nextSize st := file_image url (Json.toObject fileItem) scale]>
                                 (sizes st)) base' (S (nextSize st))))
          as (st' & Hrun & Hok' & Hle).
        { apply Slots_ok_put; [done | done | reflexivity]. }
        exists st'. split; [done|]. split; [done|]. simpl in Hle; lia.
Qed.

Lemma padSizes_spec count a n :
  n + count = length a →
  ∃ a', padSizes count a n = Ok a' ∧ length a' = length a ∧
        (∀ i, i < n → a' !! i = a !! i) ∧
        (∀ i, n ≤ i → i < length a → a' !! i = Some Image_getEmpty).
Proof.
  revert a n. induction count as [|count IH]; intros a n Hlen.
  - exists a. split_and!; [done | done | done | intros; lia].
  - cbn [padSizes]. rewrite array_at_put_lt by lia. simpl.
    destruct (IH (<[n:=Image_getEmpty]> a) (S n)) as (a' & Hrun & Hl & Hlow & Hhigh).
    { rewrite length_insert. lia. }
    rewrite length_insert in Hl, Hhigh.
    exists a'. split_and!; [done | done | |].
    + intros i Hi. rewrite Hlow by lia. apply list_lookup_insert_ne. lia.
    + intros i Hi Hi'. destruct (decide (i = n)) as [->|Hne].
      * rewrite Hlow by lia. apply list_lookup_insert_eq. lia.
      * apply Hhigh; lia.
Qed.

Lemma imageSizes_ok allow emoteData :
  imageSizes allow emoteData = Ok None ∨
  ∃ a, imageSizes allow emoteData = Ok (Some a) ∧ length a = 4 ∧
       (∃ img, a !! 0 = Some (Some img) ∧ Image_isEmpty img = false) ∧
       (∀ i, i < 4 → ∃ img, a !! i = Some (Some img)).
Proof.
  unfold imageSizes.
  set (host := Json.toObject _). set (files := Json.toArray _).
  destruct (fillSizes_ok (targetFormat allow files)
              (Json.toString (Json.value host "url")) files Slots_init)
    as (st & -> & (Hlen & Hn & Hfill) & _).
  { split_and!; simpl; [done | lia | intros; lia]. }
  simpl. rewrite Hlen.
  destruct (Nat.ltb_spec (nextSize st) 4) as [Hlt|Hge].
  - destruct (Nat.eqb_spec (nextSize st) 0) as [Hz|Hnz]; [by left | right].
    destruct (padSizes_spec (4 - nextSize st) (sizes st) (nextSize st))
      as (a & -> & Hl & Hlow & Hhigh); [lia|].
    exists a. simpl. split_and!; [done | lia | |].
    + rewrite Hlow by lia. apply Hfill. lia.
    + intros i Hi. destruct (decide (i < nextSize st)) as [Hi'|Hi'].
      * rewrite Hlow by done. destruct (Hfill i Hi') as (img & ? & _). by exists img.
      * exists Image_empty. apply Hhigh; lia.
  - right. exists (sizes st). split_and!; [done | done | apply Hfill; lia |].
    intros i Hi. destruct (Hfill i) as (img & ? & _); [lia | by exists img].
Qed.

Lemma createImageSet_ok allow emoteData :
  ∃ s img, createImageSet allow emoteData = Ok s ∧ getImage1 s = Some img.
Proof.
  unfold createImageSet.
  destruct (imageSizes_ok allow emoteData) as [-> | (a & -> & _ & (img & H0 & _) & _)].
  - by exists ImageSet_default, Image_empty.
  - simpl. eexists _, img. split; [done|]. simpl. unfold slot. by rewrite H0.
Qed.

Lemma matching_cons target fileItem rest :
  matching target (fileItem :: rest) =
  if String.eqb (Json.toString (Json.value (Json.toObject fileItem) "format"))
       target
  then Json.toObject fileItem :: matching target rest
  else matching target rest.
Proof. reflexivity. Qed.

Lemma fillSizes_based target url files st :
  length (sizes st) = 4 → nextSize st ≤ 4 →
  (0 <? baseWidth st)%float = true →
  ∃ a', fillSizes target url files st
        = Ok (mkSlots a' (baseWidth st)
                (Nat.min 4 (nextSize st + length (matching target files))))
     ∧ length a' = 4
     ∧ (∀ i, i < nextSize st → a' !! i = sizes st !! i)
     ∧ (∀ j f, matching target files !! j = Some f → nextSize st + j < 4 →
          a' !! (nextSize st + j)
          = Some (file_image url f (baseWidth st / file_width f)%float))
     ∧ (∀ i, nextSize st + length (matching target files) ≤ i →
          a' !! i = sizes st !! i).
Proof.
  revert st. induction files as [|fileItem rest IH]; intros [a bw n] Hlen Hn Hbw;
    cbn [sizes baseWidth nextSize fillSizes] in *.
  - exists a. change (matching target []) with (@nil QJsonObject).
    cbn [length]. rewrite Nat.add_0_r, Nat.min_r by done.
    split_and!; done.
  - rewrite Hlen, matching_cons.
    destruct (Nat.leb_spec 4 n) as [Hfull|Hroom].
    + exists a. rewrite Nat.min_l by lia. assert (n = 4) as -> by lia.
      split_and!; [done | done | done | intros; lia | done].
    + destruct (String.eqb _ target); simpl.
      * unfold scale_of. rewrite Hbw. rewrite array_at_put_lt by lia. simpl.
        set (img := file_image url (Json.toObject fileItem) _).
        destruct (IH (mkSlots (<[n:=img]> a) bw (S n)))
          as (a' & Hrun & Hl & Hlow & Hmid & Hhigh); simpl;
          [by rewrite length_insert | lia | done |].
        simpl in *. exists a'.
        replace (n + S (length (matching target rest)))
          with (S n + length (matching target rest)) by lia.
        split_and!; [done | done | | |].
        -- intros i Hi. rewrite Hlow by lia. apply list_lookup_insert_ne. lia.
        -- intros [|j] f Hf Hj; simpl in Hf.
           ++ injection Hf as <-. rewrite Nat.add_0_r, Hlow by lia.
              apply list_lookup_insert_eq. lia.
           ++ replace (n + S j) with (S (n + j)) by lia. apply Hmid; [done | lia].
        -- intros i Hi. rewrite Hhigh by lia. apply list_lookup_insert_ne. lia.
      * destruct (IH (mkSlots a bw n)) as (a' & Hrun & Hrest); [done..|].
        exists a'. by split.
Qed.

Lemma fillSizes_first target url files f0 rest0 :
  matching target files = f0 :: rest0 →
  ∃ files', matching target files' = rest0 ∧
    fillSizes target url files Slots_init =
    fillSizes target url files'
      (mkSlots (<[0 := file_image url f0 1%float]> (sizes Slots_init))
         (file_width f0) 1).
Proof.
  induction files as [|fileItem rest IH]; [done|].
  rewrite matching_cons. cbn [fillSizes]. simpl (_ <=? _).
  destruct (String.eqb _ target); simpl negb; cbv iota.
  - intros [= <- <-]. exists rest. split; [done|]. reflexivity.
  - apply IH.
Qed.

Lemma targetFormat_two f1 f2 rest :
  targetFormat true (f1 :: f2 :: rest) =
  if String.eqb (file_format f1) "AVIF" || String.eqb (file_format f2) "AVIF"
  then "AVIF" else "WEBP".
Proof. reflexivity. Qed.

(** C1 (amended). The format chosen by the variant selector: the legacy
    format WEBP when AVIF support is off or the file list is empty; with
    exactly one file, the format that file declares, whatever it is; with
    two or more files only the first two are inspected, and the choice is
    AVIF when one of them declares it and WEBP otherwise, whatever the later
    files declare. *)
Theorem targetFormat_cases :
  (∀ files, targetFormat false files = "WEBP") ∧
  (∀ allow, targetFormat allow [] = "WEBP") ∧
  (∀ file, targetFormat true [file] = file_format file) ∧
  (∀ f1 f2 rest,
     file_format f1 = "AVIF" ∨ file_format f2 = "AVIF" →
     targetFormat true (f1 :: f2 :: rest) = "AVIF") ∧
  (∀ f1 f2 rest,
     file_format f1 ≠ "AVIF" → file_format f2 ≠ "AVIF" →
     targetFormat true (f1 :: f2 :: rest) = "WEBP").
Proof.
  split_and!.
  - done.
  - by intros [].
  - done.
  - intros f1 f2 rest H. rewrite targetFormat_two.
    destruct H as [-> | ->]; [done|]. by rewrite orb_true_r.
  - intros f1 f2 rest H1 H2. rewrite targetFormat_two.
    destruct (String.eqb_spec (file_format f1) "AVIF"); [done|].
    destruct (String.eqb_spec (file_format f2) "AVIF"); done.
Qed.

(** The amended C1 at two samples: AVIF in second place, AVIF in third. *)
Lemma targetFormat_cases_witness :
  targetFormat true [sample_file "WEBP" 1; sample_file "AVIF" 1;
                     sample_file "WEBP" 2] = "AVIF"
  ∧ targetFormat true [sample_file "WEBP" 1; sample_file "WEBP" 2;
                       sample_file "AVIF" 2] = "WEBP".
Proof.
  split.
  - apply (proj1 (proj2 (proj2 (proj2 targetFormat_cases)))). by right.
  - apply (proj2 (proj2 (proj2 (proj2 targetFormat_cases)))); by vm_compute.
Defined.


(** C1 fails as written: with AVIF allowed and a single file that declares
    PNG, the chosen format is PNG, not WEBP, and that file becomes the
    primary image. *)
Lemma targetFormat_single_other :
  let files := host_files single_png in
  length files = 1 ∧
  file_format (Json.at_ files 0) ≠ "AVIF" ∧
  file_format (Json.at_ files 0) ≠ "WEBP" ∧
  targetFormat true files = "PNG" ∧
  targetFormat true files ≠ "WEBP" ∧
  (image_scale <$> (getImage1 <$> (match createImageSet true single_png with Ok s => Some s | Throw _ => None end))) = Some (Some 1%float).
Proof. vm_compute. split_and!; done. Qed.

(** The scales of the variants when the first file of the chosen format has
    a positive width W0: it fills slot 0 with scale 1.0, each later file of
    the chosen format fills the next slot, up to four slots in order of
    appearance, with scale W0 divided by its own width, and the slots left
    are the empty placeholder. For three WEBP files of widths 1, 2 and 3
    with AVIF off, slots 0 to 2 have scales 1.0, 0.5 and one third (as a
    double), slot 3 is the empty placeholder and the largest variant is
    slot 2. *)
Theorem createImageSet_scales :
  (∀ allow emoteData f0 rest,
     matching (targetFormat allow (host_files emoteData))
       (host_files emoteData) = f0 :: rest →
     (0 <? file_width f0)%float = true →
     ∃ a, imageSizes allow emoteData = Ok (Some a) ∧ length a = 4 ∧
          slot a 0 = file_image (host_url emoteData) f0 1%float ∧
          (∀ j f, rest !! j = Some f → j < 3 →
             slot a (S j)
             = file_image (host_url emoteData) f
                 (file_width f0 / file_width f)%float) ∧
          (∀ i, S (length rest) ≤ i → i < 4 → slot a i = Image_getEmpty) ∧
          createImageSet allow emoteData
          = Ok (mkImageSet (slot a 0) (slot a 1) (resolveLargest a)))
  ∧ (∃ a, imageSizes false variant_fallback = Ok (Some a) ∧
          image_scale <$> a
          = [Some 1%float; Some 0.5%float; Some (1 / 3)%float; None] ∧
          slot a 3 = Image_getEmpty ∧
          resolveLargest a = slot a 2 ∧
          createImageSet false variant_fallback
          = Ok (mkImageSet (slot a 0) (slot a 1) (slot a 2))).
Proof.
  split.
  - intros allow emoteData f0 rest Hm Hw.
    unfold createImageSet, imageSizes.
    fold (host_files emoteData) (host_url emoteData).
    set (target := targetFormat allow (host_files emoteData)) in *.
    destruct (fillSizes_first target (host_url emoteData) _ _ _ Hm)
      as (files' & Hm' & ->).
    destruct (fillSizes_based target (host_url emoteData) files'
                (mkSlots (<[0:=file_image (host_url emoteData) f0 1%float]>
                            (sizes Slots_init)) (file_width f0) 1))
      as (a' & -> & Hlen & Hlow & Hmid & Hhigh); [done | simpl; lia | done |].
    cbn [rbind sizes nextSize baseWidth] in *. rewrite Hm' in *. rewrite Hlen.
    assert (H0 : a' !! 0 = Some (file_image (host_url emoteData) f0 1%float)).
    { by rewrite Hlow by lia. }
    assert (Hsome : ∀ j f, rest !! j = Some f → j < 3 →
              a' !! S j = Some (file_image (host_url emoteData) f
                                  (file_width f0 / file_width f)%float)).
    { intros j f Hf Hj. apply (Hmid j f Hf). lia. }
    destruct (Nat.ltb_spec (Nat.min 4 (1 + length rest)) 4) as [Hlt|Hge].
    + destruct (Nat.eqb_spec (Nat.min 4 (1 + length rest)) 0) as [Hz|_]; [lia|].
      destruct (padSizes_spec (4 - Nat.min 4 (1 + length rest)) a'
                  (Nat.min 4 (1 + length rest)))
        as (a & -> & Hl & Hkeep & Hpad); [lia|].
      exists a. cbn [rbind]. unfold slot.
      split_and!; [done | lia | | | | done].
      * by rewrite Hkeep, H0 by lia.
      * intros j f Hf Hj. apply lookup_lt_Some in Hf as Hlt'.
        rewrite Hkeep by (clear -Hlt Hlt' Hj; lia). by rewrite (Hsome j f).
      * intros i Hi Hi'. by rewrite Hpad by lia.
    + exists a'. unfold slot. split_and!; [done | done | | | | done].
      * by rewrite H0.
      * intros j f Hf Hj. by rewrite (Hsome j f).
      * intros i Hi Hi'. lia.
  - eexists. split_and!; [vm_compute; reflexivity | reflexivity ..].
Qed.

(** The scales at the three WEBP files. *)
Lemma createImageSet_scales_witness :
  ∃ a, imageSizes false variant_fallback = Ok (Some a) ∧ length a = 4 ∧
       slot a 0 = file_image EmptyString (Json.toObject (sample_file "WEBP" 1)) 1%float ∧
       (∀ j f, [Json.toObject (sample_file "WEBP" 2);
                Json.toObject (sample_file "WEBP" 3)] !! j = Some f → j < 3 →
          slot a (S j) = file_image EmptyString f (1 / file_width f)%float) ∧
       (∀ i, 3 ≤ i → i < 4 → slot a i = Image_getEmpty) ∧
       createImageSet false variant_fallback
       = Ok (mkImageSet (slot a 0) (slot a 1) (resolveLargest a)).
Proof.
  apply (proj1 createImageSet_scales false variant_fallback
           (Json.toObject (sample_file "WEBP" 1))
           [Json.toObject (sample_file "WEBP" 2);
            Json.toObject (sample_file "WEBP" 3)]); reflexivity.
Defined.

(** C6. The code at a first file of width 0. The test [baseWidth > 0.0]
    stands for "a first image has been seen": after a first WEBP file of
    width 0 it still fails, so the second file, of width 2, is taken for
    the first image and gets scale 1.0, where the reference width of the
    first file gives 0 / 2. The comments of the loop say that the scale is
    in relation to the first image. *)
Lemma scale_after_zero_width :
  ∃ a f0 f1,
    matching (targetFormat false (host_files zero_width_first))
      (host_files zero_width_first) = [f0; f1] ∧
    file_width f0 = 0%float ∧
    file_width f1 = 2%float ∧
    imageSizes false zero_width_first = Ok (Some a) ∧
    slot a 0 = file_image (host_url zero_width_first) f0 1%float ∧
    slot a 1 = file_image (host_url zero_width_first) f1 1%float ∧
    image_scale (slot a 1) ≠ Some (file_width f0 / file_width f1)%float.
Proof.
  eexists _, _, _.
  split_and!; [reflexivity | reflexivity | reflexivity
              | vm_compute; reflexivity | reflexivity | reflexivity |].
  vm_compute. discriminate.
Qed.

(** ** Building a record never throws *)

Lemma createEmote_ok settings activeEmote emoteData kind :
  ∃ r img,
    createEmote settings activeEmote emoteData kind = Ok r ∧
    CreateEmoteResult.name r = entry_name activeEmote ∧
    CreateEmoteResult.id r = entry_id activeEmote ∧
    Emote.name (CreateEmoteResult.emote r) = entry_name activeEmote ∧
    Emote.id (CreateEmoteResult.emote r) = entry_id activeEmote ∧
    getImage1 (Emote.images (CreateEmoteResult.emote r)) = Some img ∧
    CreateEmoteResult.hasImages r = negb (Image_isEmpty img).
Proof.
  unfold createEmote.
  destruct (createImageSet_ok (ALLOW_AVIF_IMAGES settings) emoteData)
    as (s & img & -> & Himg).
  cbn [rbind Emote.images]. rewrite Himg. cbn [ImagePtr_isEmpty rbind].
  eexists _, img. split; [reflexivity|]. by split_and!.
Qed.

Lemma accepted_Some settings kind activeEmote r :
  accepted settings kind activeEmote = Some r ↔
  Json.empty (entry_data activeEmote) = false ∧
  checkEmoteVisibility settings (entry_data activeEmote) kind = true ∧
  createEmote settings activeEmote (entry_data activeEmote) kind = Ok r ∧
  CreateEmoteResult.hasImages r = true.
Proof.
  unfold accepted.
  destruct (Json.empty _), (checkEmoteVisibility _ _ _); simpl;
    try (split; [done | by intros (? & ? & _)]).
  destruct (createEmote_ok settings activeEmote (entry_data activeEmote) kind)
    as (r' & img & -> & _).
  destruct (CreateEmoteResult.hasImages r') eqn:Hh; split.
  - by intros [= <-].
  - by intros (_ & _ & [= <-] & _).
  - done.
  - intros (_ & _ & [= <-] & ?). congruence.
Qed.

Lemma accepted_names settings kind activeEmote r :
  accepted settings kind activeEmote = Some r →
  CreateEmoteResult.name r = entry_name activeEmote ∧
  CreateEmoteResult.id r = entry_id activeEmote ∧
  Emote.name (CreateEmoteResult.emote r) = CreateEmoteResult.name r ∧
  Emote.id (CreateEmoteResult.emote r) = CreateEmoteResult.id r ∧
  ∃ img, getImage1 (Emote.images (CreateEmoteResult.emote r)) = Some img ∧
         Image_isEmpty img = false.
Proof.
  intros (_ & _ & Hc & Hh)%accepted_Some.
  destruct (createEmote_ok settings activeEmote (entry_data activeEmote) kind)
    as (r' & img & Hc' & Hn & Hi & Hen & Hei & Himg & Hhas).
  rewrite Hc in Hc'. injection Hc' as <-.
  split_and!; [done | done | congruence | congruence |].
  exists img. split; [done|]. rewrite Hh in Hhas. by destruct (Image_isEmpty img).
Qed.

Lemma parseEmotes_loop_cons settings kind outside entry rest emotes h :
  parseEmotes_loop settings kind outside (entry :: rest) emotes h =
  match accepted settings kind (Json.toObject entry) with
  | None => parseEmotes_loop settings kind outside rest emotes h
  | Some r =>
      match cachedOrMake (CreateEmoteResult.emote r) (CreateEmoteResult.id r) h
      with
      | Ok (ptr, h1) =>
          match assign outside emotes (CreateEmoteResult.name r) ptr h1 with
          | Ok (emotes', h2) =>
              parseEmotes_loop settings kind outside rest emotes' h2
          | Throw e => Throw e
          end
      | Throw e => Throw e
      end
  end.
Proof.
  cbn [parseEmotes_loop]. unfold accepted.
  fold (entry_data (Json.toObject entry)).
  destruct (Json.empty _ || negb _); [done|].
  destruct (createEmote_ok settings (Json.toObject entry)
              (entry_data (Json.toObject entry)) kind) as (r & _ & Hr & _).
  unfold mbind, lift. rewrite Hr.
  by destruct (CreateEmoteResult.hasImages r).
Qed.

Lemma addEmote_unfold settings map dispatch kind h :
  addEmote settings map dispatch kind h =
  match accepted settings kind (EmoteAddDispatch.emoteJson dispatch) with
  | None => Ok ((None, map), h)
  | Some r =>
      let emote := mk_shared (next_address h) (CreateEmoteResult.emote r) in
      Ok ((Some emote,
           mk_shared (S (next_address h))
             (<[CreateEmoteResult.name r := emote]> (pointee map))),
          mkHeap (S (S (next_address h)))
            ({[S (next_address h)]} ∪ ({[next_address h]} ∪ live h))
            (cache h))
  end.
Proof.
  unfold addEmote, accepted, accepted.
  fold (entry_data (EmoteAddDispatch.emoteJson dispatch)).
  destruct (Json.empty _ || negb _); [done|].
  destruct (createEmote_ok settings (EmoteAddDispatch.emoteJson dispatch)
              (entry_data (EmoteAddDispatch.emoteJson dispatch)) kind)
    as (r & _ & Hr & _).
  unfold mbind, lift. rewrite Hr.
  by destruct (CreateEmoteResult.hasImages r).
Qed.


(** ** Lookup *)

Lemma findEmote_Some m n i k p :
  findEmote m n i = Some (k, p) → m !! k = Some p.
Proof.
  unfold findEmote. destruct (m !! n) eqn:Hn.
  - by intros [= <- <-].
  - intros [Hin _]%find_some.
    by apply list_elem_of_In, elem_of_map_to_list in Hin.
Qed.

Lemma findEmote_None m n i :
  findEmote m n i = None ↔
  m !! n = None ∧ ∀ k p, m !! k = Some p → Emote.id (pointee p) ≠ i.
Proof.
  unfold findEmote. destruct (m !! n) eqn:Hn.
  - split; [done | by intros [? _]].
  - split.
    + intros Hnone. split; [done|]. intros k p Hk Hid.
      pose proof (find_none _ _ Hnone (k, p)) as Hf. simpl in Hf.
      rewrite (proj2 (String.eqb_eq _ _) Hid) in Hf.
      assert (Hin : In (k, p) (map_to_list m)).
      { by apply list_elem_of_In, elem_of_map_to_list. }
      by specialize (Hf Hin).
    + intros [_ Hall].
      destruct (find _ _) as [[k p]|] eqn:Hf; [|done].
      apply find_some in Hf as [Hin Hid]. simpl in Hid.
      apply list_elem_of_In, elem_of_map_to_list in Hin.
      apply String.eqb_eq in Hid. by destruct (Hall k p Hin).
Qed.

Lemma findEmote_by_id m n i k p :
  m !! n = None → m !! k = Some p → Emote.id (pointee p) = i →
  (∀ k' p', m !! k' = Some p' → Emote.id (pointee p') = i → k' = k) →
  findEmote m n i = Some (k, p).
Proof.
  intros Hn Hk Hid Huniq.
  destruct (findEmote m n i) as [[k' p']|] eqn:Hf.
  - pose proof (findEmote_Some _ _ _ _ _ Hf) as Hk'.
    unfold findEmote in Hf. rewrite Hn in Hf.
    apply find_some in Hf as [_ Hid']. simpl in Hid'.
    apply String.eqb_eq in Hid'.
    assert (k' = k) as -> by eauto. congruence.
  - apply findEmote_None in Hf as [_ Hall]. by destruct (Hall k p Hk).
Qed.

(** ** The operations, step by step *)

Lemma updateEmote_found map dispatch kind h key oldEmote :
  findEmote (pointee map) (EmoteUpdateDispatch.emoteName dispatch)
    (EmoteUpdateDispatch.emoteID dispatch) = Some (key, oldEmote) →
  updateEmote map dispatch kind h =
  let emote :=
    mk_shared (next_address h) (updatedEmote (pointee oldEmote) dispatch kind) in
  Ok ((Some emote,
       mk_shared (S (next_address h))
         (<[EmoteUpdateDispatch.emoteName dispatch := emote]>
            (delete (Emote.name (pointee oldEmote)) (pointee map)))),
      mkHeap (S (S (next_address h)))
        ({[S (next_address h)]} ∪ ({[next_address h]} ∪ live h)) (cache h)).
Proof. intros Hf. unfold updateEmote. by rewrite Hf. Qed.

Lemma updateEmote_missed map dispatch kind h :
  findEmote (pointee map) (EmoteUpdateDispatch.emoteName dispatch)
    (EmoteUpdateDispatch.emoteID dispatch) = None →
  updateEmote map dispatch kind h = Ok ((None, map), h).
Proof. intros Hf. unfold updateEmote. by rewrite Hf. Qed.

Lemma removeEmote_found map dispatch h key emote :
  findEmote (pointee map) (EmoteRemoveDispatch.emoteName dispatch)
    (EmoteRemoveDispatch.emoteID dispatch) = Some (key, emote) →
  removeEmote map dispatch h =
  Ok ((Some emote, mk_shared (next_address h) (delete key (pointee map))),
      mkHeap (S (next_address h)) ({[next_address h]} ∪ live h) (cache h)).
Proof. intros Hf. unfold removeEmote. by rewrite Hf. Qed.

Lemma removeEmote_missed map dispatch h :
  findEmote (pointee map) (EmoteRemoveDispatch.emoteName dispatch)
    (EmoteRemoveDispatch.emoteID dispatch) = None →
  removeEmote map dispatch h = Ok ((None, map), h).
Proof. intros Hf. unfold removeEmote. by rewrite Hf. Qed.

Lemma createEmote_alias settings activeEmote emoteData kind r :
  createEmote settings activeEmote emoteData kind = Ok r →
  Emote.baseName (CreateEmoteResult.emote r)
  = makeConditionedOptional
      (negb (String.eqb (entry_name activeEmote)
               (Json.toString (Json.value emoteData "name"))))
      (Json.toString (Json.value emoteData "name"))
  ∧ Emote.author (CreateEmoteResult.emote r)
    = Json.toString
        (Json.value (Json.toObject (Json.value emoteData "owner"))
           "display_name").
Proof.
  unfold createEmote.
  destruct (createImageSet _ _) as [s|]; [|done]. cbn [rbind Emote.images].
  destruct (ImagePtr_isEmpty _); [|done]. cbn [rbind].
  by intros [= <-].
Qed.

Lemma updatedEmote_resolved old dispatch kind :
  toNonAliased old dispatch = true →
  Emote.baseName (updatedEmote old dispatch kind) = None ∧
  Emote.tooltip (updatedEmote old dispatch kind)
  = createTooltip (EmoteUpdateDispatch.emoteName dispatch) (Emote.author old)
      kind.
Proof. intros H. unfold updatedEmote. by rewrite H. Qed.

Lemma updatedEmote_aliased old dispatch kind :
  toNonAliased old dispatch = false →
  Emote.baseName (updatedEmote old dispatch kind)
  = Some (default (Emote.name old) (Emote.baseName old)) ∧
  Emote.tooltip (updatedEmote old dispatch kind)
  = createAliasedTooltip (EmoteUpdateDispatch.emoteName dispatch)
      (default (Emote.name old) (Emote.baseName old)) (Emote.author old) kind.
Proof. intros H. unfold updatedEmote. by rewrite H. Qed.

(** C2 (amended). An Update that locates a record resolves to base iff the
    located record has a base name equal to the incoming display name. The
    replacement keeps the images, identifier, author, link and zero-width
    flag. When not resolving to base, its base name is the old record's base
    name if it has one and the old display name otherwise, and the tooltip
    is the aliased form over that base name; when resolving to base it has
    no base name and the tooltip is the non-aliased form. *)
Theorem updateEmote_replacement map dispatch kind h key oldEmote :
  findEmote (pointee map) (EmoteUpdateDispatch.emoteName dispatch)
    (EmoteUpdateDispatch.emoteID dispatch) = Some (key, oldEmote) →
  let old := pointee oldEmote in
  let newName := EmoteUpdateDispatch.emoteName dispatch in
  let base := default (Emote.name old) (Emote.baseName old) in
  (toNonAliased old dispatch = true ↔ Emote.baseName old = Some newName) ∧
  ∃ ptr published h',
    updateEmote map dispatch kind h = Ok ((Some ptr, published), h') ∧
    pointee published
    = <[newName := ptr]> (delete (Emote.name old) (pointee map)) ∧
    Emote.name (pointee ptr) = newName ∧
    Emote.images (pointee ptr) = Emote.images old ∧
    Emote.id (pointee ptr) = Emote.id old ∧
    Emote.author (pointee ptr) = Emote.author old ∧
    Emote.homePage (pointee ptr) = Emote.homePage old ∧
    Emote.zeroWidth (pointee ptr) = Emote.zeroWidth old ∧
    (toNonAliased old dispatch = false →
       Emote.baseName (pointee ptr) = Some base ∧
       Emote.tooltip (pointee ptr)
       = createAliasedTooltip newName base (Emote.author old) kind) ∧
    (toNonAliased old dispatch = true →
       Emote.baseName (pointee ptr) = None ∧
       Emote.tooltip (pointee ptr)
       = createTooltip newName (Emote.author old) kind).
Proof.
  intros Hf old newName base. split.
  - unfold toNonAliased. fold old newName.
    destruct (Emote.baseName old) as [b|]; [|done].
    destruct (String.eqb_spec newName b); split; congruence.
  - rewrite (updateEmote_found _ _ _ _ _ _ Hf). cbv zeta.
    eexists _, _, _. split; [reflexivity|]. cbn [pointee].
    split_and!; try reflexivity.
    + apply updatedEmote_aliased.
    + apply updatedEmote_resolved.
Qed.

(** The amended C2 at a sample: the alias pog of poggers is renamed pog2. *)
Lemma updateEmote_replacement_witness :
  ∃ ptr published h',
    updateEmote sample_cell (EmoteUpdateDispatch.mk "1" "pog2") Channel
      sample_heap = Ok ((Some ptr, published), h') ∧
    Emote.baseName (pointee ptr) = Some "poggers" ∧
    Emote.tooltip (pointee ptr)
    = createAliasedTooltip "pog2" "poggers" EmptyString Channel.
Proof.
  destruct (updateEmote_replacement sample_cell
              (EmoteUpdateDispatch.mk "1" "pog2") Channel sample_heap
              "pog" (mk_shared 0 sample_alias))
    as (_ & ptr & published & h' & Hrun & _ & _ & _ & _ & _ & _ & _ & Halias & _).
  { vm_compute. reflexivity. }
  exists ptr, published, h'. split; [exact Hrun|].
  apply Halias. reflexivity.
Defined.

(** C2 fails as written: the old record is pog, an alias of poggers;
    the Update to pog2 does not resolve to base, and the replacement's base
    name is poggers, not the prior display name pog. *)
Lemma update_keeps_base_name :
  let dispatch := EmoteUpdateDispatch.mk "1" "pog2" in
  findEmote (pointee sample_cell) "pog2" "1"
  = Some ("pog", mk_shared 0 sample_alias) ∧
  toNonAliased sample_alias dispatch = false ∧
  ∃ ptr published h',
    updateEmote sample_cell dispatch Channel sample_heap
    = Ok ((Some ptr, published), h') ∧
    Emote.baseName (pointee ptr) = Some "poggers" ∧
    Emote.baseName (pointee ptr) ≠ Some (Emote.name sample_alias).
Proof.
  split_and!; [vm_compute; reflexivity | reflexivity |].
  eexists _, _, _. split_and!; [vm_compute; reflexivity | reflexivity |].
  vm_compute. discriminate.
Qed.

(** C5. Every path without a change returns the cell as it was, the same
    pointer, together with an absent result and an untouched heap: Add when
    the entry has no metadata, Add when the visibility policy rejects the
    entry, Add when the built record has no images, Update and Remove when
    neither the display name nor the identifier locates a record. *)
Theorem no_change_paths settings map kind h :
  (∀ dispatch,
     Json.empty (entry_data (EmoteAddDispatch.emoteJson dispatch)) = true →
     addEmote settings map dispatch kind h = Ok ((None, map), h)) ∧
  (∀ dispatch,
     checkEmoteVisibility settings
       (entry_data (EmoteAddDispatch.emoteJson dispatch)) kind = false →
     addEmote settings map dispatch kind h = Ok ((None, map), h)) ∧
  (∀ dispatch r,
     createEmote settings (EmoteAddDispatch.emoteJson dispatch)
       (entry_data (EmoteAddDispatch.emoteJson dispatch)) kind = Ok r →
     CreateEmoteResult.hasImages r = false →
     addEmote settings map dispatch kind h = Ok ((None, map), h)) ∧
  (∀ dispatch,
     pointee map !! EmoteUpdateDispatch.emoteName dispatch = None →
     (∀ k p, pointee map !! k = Some p →
             Emote.id (pointee p) ≠ EmoteUpdateDispatch.emoteID dispatch) →
     updateEmote map dispatch kind h = Ok ((None, map), h)) ∧
  (∀ dispatch,
     pointee map !! EmoteRemoveDispatch.emoteName dispatch = None →
     (∀ k p, pointee map !! k = Some p →
             Emote.id (pointee p) ≠ EmoteRemoveDispatch.emoteID dispatch) →
     removeEmote map dispatch h = Ok ((None, map), h)).
Proof.
  split_and!.
  - intros dispatch Hdata. rewrite addEmote_unfold. unfold accepted.
    by rewrite Hdata.
  - intros dispatch Hvis. rewrite addEmote_unfold. unfold accepted.
    by rewrite Hvis, orb_true_r.
  - intros dispatch r Hr Hno. rewrite addEmote_unfold. unfold accepted.
    destruct (Json.empty _ || negb _); [done|]. by rewrite Hr, Hno.
  - intros dispatch Hname Hid. apply updateEmote_missed.
    by apply findEmote_None.
  - intros dispatch Hname Hid. apply removeEmote_missed.
    by apply findEmote_None.
Qed.

(** C10. A published collection differs from the previous snapshot only at
    the affected names. After Add, the added name holds the new record, a
    fresh allocation, every other key holds the pointer it held, and the
    size is unchanged when the name was already present. After Update,
    every key other than the located record's name and the new display name
    holds the pointer it held. After Remove, the located key is gone and
    every other key holds the pointer it held. *)
Theorem published_frame settings map kind h :
  (∀ dispatch emote published h',
     addEmote settings map dispatch kind h
     = Ok ((Some emote, published), h') →
     let name := Emote.name (pointee emote) in
     pointee published !! name = Some emote ∧
     address emote = next_address h ∧
     (∀ k, k ≠ name → pointee published !! k = pointee map !! k) ∧
     (is_Some (pointee map !! name) →
      size (pointee published) = size (pointee map))) ∧
  (∀ dispatch emote published h',
     updateEmote map dispatch kind h = Ok ((Some emote, published), h') →
     ∃ key old,
       findEmote (pointee map) (EmoteUpdateDispatch.emoteName dispatch)
         (EmoteUpdateDispatch.emoteID dispatch) = Some (key, old) ∧
       Emote.name (pointee emote) = EmoteUpdateDispatch.emoteName dispatch ∧
       pointee published !! Emote.name (pointee emote) = Some emote ∧
       ∀ k, k ≠ Emote.name (pointee old) →
            k ≠ Emote.name (pointee emote) →
            pointee published !! k = pointee map !! k) ∧
  (∀ dispatch emote published h',
     removeEmote map dispatch h = Ok ((Some emote, published), h') →
     ∃ key,
       findEmote (pointee map) (EmoteRemoveDispatch.emoteName dispatch)
         (EmoteRemoveDispatch.emoteID dispatch) = Some (key, emote) ∧
       pointee map !! key = Some emote ∧
       pointee published !! key = None ∧
       ∀ k, k ≠ key → pointee published !! k = pointee map !! k).
Proof.
  split_and!.
  - intros dispatch emote published h'. rewrite addEmote_unfold.
    destruct (accepted _ _ _) as [r|] eqn:Hacc; [|done].
    destruct (accepted_names _ _ _ _ Hacc) as (_ & _ & Hname & _).
    cbv zeta. intros [= <- <- <-]. cbn [pointee address]. rewrite Hname.
    split_and!.
    + apply lookup_insert_eq.
    + done.
    + intros k Hk. by apply lookup_insert_ne.
    + apply map_size_insert_Some.
  - intros dispatch emote published h' Hrun.
    destruct (findEmote (pointee map) _ _) as [[key old]|] eqn:Hf.
    + rewrite (updateEmote_found _ _ _ _ _ _ Hf) in Hrun. cbv zeta in Hrun.
      injection Hrun as <- <- <-. exists key, old. cbn [pointee].
      split_and!; [done | done | apply lookup_insert_eq |].
      intros k Hold Hnew. cbn [updatedEmote Emote.name] in Hnew.
      by rewrite lookup_insert_ne, lookup_delete_ne.
    + by rewrite (updateEmote_missed _ _ _ _ Hf) in Hrun.
  - intros dispatch emote published h' Hrun.
    destruct (findEmote (pointee map) _ _) as [[key e]|] eqn:Hf.
    + rewrite (removeEmote_found _ _ _ _ _ Hf) in Hrun.
      injection Hrun as <- <- <-. exists key. cbn [pointee].
      split_and!; [done | by eapply findEmote_Some | apply lookup_delete_eq |].
      intros k Hk. by apply lookup_delete_ne.
    + by rewrite (removeEmote_missed _ _ _ Hf) in Hrun.
Qed.

(** C7. Alias round trip. An accepted entry shown as pog whose base name is
    poggers is added as an alias of poggers. An Update to poggers then
    yields a record without base name and with the non-aliased tooltip, and
    a further Update to pog2 yields a record whose base name is poggers.
    The collection holds no other record with the entry's identifier and
    nothing under the two new names, so the lookups find this record. *)
Theorem alias_round_trip settings kind entry map h :
  entry_name entry = "pog" →
  Json.toString (Json.value (entry_data entry) "name") = "poggers" →
  is_Some (accepted settings kind entry) →
  pointee map !! "poggers" = None →
  pointee map !! "pog2" = None →
  (∀ k p, pointee map !! k = Some p → k ≠ "pog" →
          Emote.id (pointee p) ≠ entry_id entry) →
  ∃ p1 c1 h1 p2 c2 h2 p3 c3 h3,
    addEmote settings map (EmoteAddDispatch.mk entry) kind h
    = Ok ((Some p1, c1), h1) ∧
    Emote.name (pointee p1) = "pog" ∧
    Emote.baseName (pointee p1) = Some "poggers" ∧
    updateEmote c1 (EmoteUpdateDispatch.mk (entry_id entry) "poggers") kind h1
    = Ok ((Some p2, c2), h2) ∧
    Emote.name (pointee p2) = "poggers" ∧
    Emote.baseName (pointee p2) = None ∧
    Emote.tooltip (pointee p2)
    = createTooltip "poggers" (Emote.author (pointee p1)) kind ∧
    updateEmote c2 (EmoteUpdateDispatch.mk (entry_id entry) "pog2") kind h2
    = Ok ((Some p3, c3), h3) ∧
    Emote.name (pointee p3) = "pog2" ∧
    Emote.baseName (pointee p3) = Some "poggers".
Proof.
  intros Hname Hbase [r Hacc] Hfree1 Hfree2 Hothers.
  destruct (accepted_names _ _ _ _ Hacc) as (Hrn & Hri & Hen & Hei & _).
  apply accepted_Some in Hacc as Hparts. destruct Hparts as (_ & _ & Hc & _).
  apply createEmote_alias in Hc as [Hb _].
  rewrite Hname, Hbase in Hb. cbn in Hb. rewrite Hname in Hrn.
  rewrite Hrn in Hen. rewrite Hri in Hei.
  set (e1 := CreateEmoteResult.emote r) in *.
  set (p1 := mk_shared (next_address h) e1).
  set (m1 := <["pog" := p1]> (pointee map)).
  (* the first Update finds the added record by its identifier *)
  assert (Hf1 : findEmote m1 "poggers" (entry_id entry) = Some ("pog", p1)).
  { apply findEmote_by_id.
    - unfold m1. by rewrite lookup_insert_ne.
    - apply lookup_insert_eq.
    - done.
    - intros k' p' Hk' Hid'. destruct (decide (k' = "pog")) as [|Hne]; [done|].
      unfold m1 in Hk'. rewrite lookup_insert_ne in Hk' by done.
      by destruct (Hothers k' p' Hk' Hne). }
  set (d1 := EmoteUpdateDispatch.mk (entry_id entry) "poggers").
  set (e2 := updatedEmote e1 d1 kind).
  set (p2 := mk_shared (S (S (next_address h))) e2).
  set (m2 := <["poggers" := p2]> (delete "pog" m1)).
  assert (Hna1 : toNonAliased e1 d1 = true).
  { unfold toNonAliased. by rewrite Hb. }
  assert (Hid2 : Emote.id e2 = entry_id entry) by done.
  (* the second Update finds the replacement by its identifier *)
  assert (Hf2 : findEmote m2 "pog2" (entry_id entry) = Some ("poggers", p2)).
  { apply findEmote_by_id.
    - unfold m2, m1.
      by rewrite lookup_insert_ne, lookup_delete_ne, lookup_insert_ne.
    - apply lookup_insert_eq.
    - done.
    - intros k' p' Hk' Hid'.
      destruct (decide (k' = "poggers")) as [|Hne]; [done|].
      unfold m2 in Hk'. rewrite lookup_insert_ne in Hk' by done.
      apply lookup_delete_Some in Hk' as [Hne' Hk'].
      unfold m1 in Hk'. rewrite lookup_insert_ne in Hk' by done.
      by destruct (Hothers k' p' Hk'). }
  set (d2 := EmoteUpdateDispatch.mk (entry_id entry) "pog2").
  eexists p1, _, _, p2, _, _, _, _, _.
  split_and!.
  - rewrite addEmote_unfold. cbn [EmoteAddDispatch.emoteJson].
    rewrite Hacc. cbv zeta. rewrite Hrn. reflexivity.
  - done.
  - done.
  - rewrite (updateEmote_found (mk_shared (S (next_address h)) m1) d1 kind
               _ "pog" p1 Hf1).
    cbv zeta. change (pointee p1) with e1. rewrite Hen. reflexivity.
  - done.
  - apply (updatedEmote_resolved e1 d1 kind Hna1).
  - apply (updatedEmote_resolved e1 d1 kind Hna1).
  - rewrite (updateEmote_found (mk_shared (S (S (S (next_address h)))) m2) d2
               kind _ "poggers" p2 Hf2).
    cbv zeta. reflexivity.
  - done.
  - change (Emote.baseName (updatedEmote e2 d2 kind) = Some "poggers").
    assert (Hb2 : Emote.baseName e2 = None)
      by apply (updatedEmote_resolved e1 d1 kind Hna1).
    assert (Hna2 : toNonAliased e2 d2 = false).
    { unfold toNonAliased. by rewrite Hb2. }
    rewrite (proj1 (updatedEmote_aliased e2 d2 kind Hna2)). by rewrite Hb2.
Qed.

(** ** The intern cache *)

Lemma cachedOrMake_cases emote id h :
  (∃ p, cache h !! id = Some p ∧ address p ∈ live h ∧
        cachedOrMake emote id h = Ok (p, h)) ∨
  ((∀ p, cache h !! id = Some p → address p ∉ live h) ∧
   cachedOrMake emote id h
   = Ok (mk_shared (next_address h) emote,
         mkHeap (S (next_address h)) ({[next_address h]} ∪ live h)
           (<[id := mk_shared (next_address h) emote]> (cache h)))).
Proof.
  unfold cachedOrMake, cachedOrMakeEmotePtr.
  destruct (cache h !! id) as [p|] eqn:Hc; simpl.
  - unfold lock. destruct (decide (address p ∈ live h)) as [Hl|Hl].
    + left. by exists p.
    + right. split; [|done]. by intros ? [= <-].
  - right. by split.
Qed.

Lemma heap_wf_step h h' : heap_wf h → step h h' → heap_wf h'.
Proof.
  intros [Hlive Hcache] Hstep. destruct Hstep as [emote p h h' Hrun|T x p h h' Hrun|a h].
  - destruct (cachedOrMake_cases emote (Emote.id emote) h)
      as [(q & _ & _ & Heq) | (_ & Heq)];
      rewrite Heq in Hrun; injection Hrun as <- <-; [done|].
    split; simpl.
    + intros a [->%elem_of_singleton | Ha]%elem_of_union; [lia|].
      specialize (Hlive a Ha). lia.
    + intros id q [[<- <-] | [_ Hq]]%lookup_insert_Some; simpl; [by split; [lia|] |].
      destruct (Hcache id q Hq). split; [lia | done].
  - injection Hrun as <- <-. split; simpl.
    + intros a [->%elem_of_singleton | Ha]%elem_of_union; [lia|].
      specialize (Hlive a Ha). lia.
    + intros id q Hq. destruct (Hcache id q Hq). split; [lia | done].
  - split; simpl.
    + intros b [Hb _]%elem_of_difference. by apply Hlive.
    + done.
Qed.

Lemma heap_wf_steps h h' : heap_wf h → rtc step h h' → heap_wf h'.
Proof. intros Hwf Hsteps. induction Hsteps; eauto using heap_wf_step. Qed.

Lemma interned_step id p h h' : interned id p h → step h h' → interned id p h'.
Proof.
  intros [Hlt Hhit] Hstep. destruct Hstep as [emote q h h' Hrun|T x q h h' Hrun|a h].
  - destruct (cachedOrMake_cases emote (Emote.id emote) h)
      as [(q' & _ & _ & Heq) | (Hmiss & Heq)];
      rewrite Heq in Hrun; injection Hrun as <- <-; [done|].
    split; simpl; [lia|].
    intros [Hp%elem_of_singleton | Hp]%elem_of_union; [lia|].
    specialize (Hhit Hp).
    destruct (decide (Emote.id emote = id)) as [Heq'|Hne].
    + rewrite Heq' in Hmiss. by destruct (Hmiss p Hhit).
    + by rewrite lookup_insert_ne.
  - injection Hrun as <- <-. split; simpl; [lia|].
    intros [Hp%elem_of_singleton | Hp]%elem_of_union; [lia | by apply Hhit].
  - split; simpl; [done|].
    intros [Hp _]%elem_of_difference. by apply Hhit.
Qed.

Lemma interned_steps id p h h' :
  interned id p h → rtc step h h' → interned id p h'.
Proof. intros Hi Hsteps. induction Hsteps; eauto using interned_step. Qed.

Lemma interned_first emote id h p h' :
  heap_wf h → cachedOrMake emote id h = Ok (p, h') → interned id p h'.
Proof.
  intros [Hlive Hcache] Hrun.
  destruct (cachedOrMake_cases emote id h)
    as [(q & Hq & Hl & Heq) | (_ & Heq)];
    rewrite Heq in Hrun; injection Hrun as <- <-.
  - split; [by apply Hlive | done].
  - split; simpl; [lia|]. intros _. apply lookup_insert_eq.
Qed.

Lemma interned_hit emote id p h :
  interned id p h → address p ∈ live h → cachedOrMake emote id h = Ok (p, h).
Proof.
  intros [_ Hhit] Hl. specialize (Hhit Hl).
  unfold cachedOrMake, cachedOrMakeEmotePtr. rewrite Hhit. simpl.
  unfold lock. by rewrite decide_True.
Qed.

(** ** A build, seen from the heap *)

Lemma assign_cases outside emotes name ptr h :
  ∃ h', assign outside emotes name ptr h = Ok (<[name:=ptr]> emotes, h') ∧
        (h' = h ∨
         ∃ old, emotes !! name = Some old ∧ h' = release (address old) h ∧
                (address old ∉ outside) ∧
                ∀ k q, <[name:=ptr]> emotes !! k = Some q →
                       address q ≠ address old).
Proof.
  unfold assign. destruct (emotes !! name) as [old|] eqn:Hold.
  - destruct (still_referenced _ _ old) eqn:Href.
    + eexists. split; [done | by left].
    + eexists. split; [done | right]. exists old.
      unfold still_referenced in Href.
      apply orb_false_elim in Href as [Hout Hin].
      split_and!; [done | done | by apply bool_decide_eq_false in Hout |].
      intros k q Hk Haddr.
      assert (existsb (λ kq, address kq.2 =? address old)
                (map_to_list (<[name:=ptr]> emotes)) = true); [|congruence].
      apply existsb_exists. exists (k, q). split.
      * by apply list_elem_of_In, elem_of_map_to_list.
      * by apply Nat.eqb_eq.
  - eexists. split; [done | by left].
Qed.

Lemma assign_step outside emotes name ptr h emotes' h' :
  assign outside emotes name ptr h = Ok (emotes', h') →
  emotes' = <[name:=ptr]> emotes ∧ rtc step h h' ∧
  cache h' = cache h ∧ next_address h' = next_address h ∧
  live h' ⊆ live h ∧
  (outside ⊆ live h → outside ⊆ live h') ∧
  (∀ k q, emotes' !! k = Some q → address q ∈ live h → address q ∈ live h').
Proof.
  intros Hrun.
  destruct (assign_cases outside emotes name ptr h)
    as (h1 & Heq & [-> | (old & _ & -> & Hout & Hfree)]);
    rewrite Heq in Hrun; injection Hrun as <- <-.
  - by split_and!.
  - split_and!; [done | apply rtc_once, step_release | done | done | ..]; simpl.
    + by intros x [Hx _]%elem_of_difference.
    + intros Hsub x Hx. apply elem_of_difference. split; [by apply Hsub|].
      by intros ->%elem_of_singleton.
    + intros k q Hk Hq. apply elem_of_difference. split; [done|].
      intros Hsame%elem_of_singleton. by destruct (Hfree k q Hk).
Qed.

Lemma parseEmotes_loop_steps settings kind outside entries emotes h m h' :
  parseEmotes_loop settings kind outside entries emotes h = Ok (m, h') →
  rtc step h h' ∧ (outside ⊆ live h → outside ⊆ live h').
Proof.
  revert emotes h. induction entries as [|entry rest IH]; intros emotes h.
  - intros [= <- <-]. by split.
  - rewrite parseEmotes_loop_cons.
    destruct (accepted _ _ _) as [r|] eqn:Hacc; [|apply IH].
    destruct (accepted_names _ _ _ _ Hacc) as (_ & _ & _ & Hid & _).
    destruct (cachedOrMake _ _ h) as [[ptr h1]|] eqn:Hrun; [|done].
    destruct (assign _ _ _ _ h1) as [[emotes' h2]|] eqn:Hassign; [|done].
    apply assign_step in Hassign as (_ & Hs2 & _ & _ & _ & Hout2 & _).
    intros Hrest. destruct (IH _ _ Hrest) as [Hsteps Hsub]. split.
    + apply rtc_l with h1; [|by apply rtc_trans with h2].
      rewrite <- Hid in Hrun. by eapply step_intern.
    + intros Hout. apply Hsub, Hout2.
      destruct (cachedOrMake_cases (CreateEmoteResult.emote r)
                  (CreateEmoteResult.id r) h)
        as [(q & _ & _ & Heq) | (_ & Heq)];
        rewrite Heq in Hrun; injection Hrun as <- <-; [done|].
      simpl. clear -Hout. set_solver.
Qed.

Lemma from_cache_empty h : from_cache ∅ h.
Proof. intros k p Hk. by rewrite lookup_empty in Hk. Qed.

Lemma parseEmotes_loop_from_cache settings kind outside entries emotes h m h' :
  heap_wf h → from_cache emotes h →
  parseEmotes_loop settings kind outside entries emotes h = Ok (m, h') →
  from_cache m h'.
Proof.
  revert emotes h. induction entries as [|entry rest IH]; intros emotes h Hwf Hm.
  - by intros [= <- <-].
  - rewrite parseEmotes_loop_cons.
    destruct (accepted _ _ _) as [r|] eqn:Hacc; [|by apply IH].
    destruct (accepted_names _ _ _ _ Hacc) as (_ & _ & _ & Hid & _).
    destruct (cachedOrMake _ _ h) as [[ptr h1]|] eqn:Hrun; [|done].
    destruct (assign _ _ _ _ h1) as [[emotes' h2]|] eqn:Hassign; [|done].
    apply assign_step in Hassign as (-> & Hs2 & Hc2 & _ & _ & _ & Hkeep).
    assert (Hstep : step h h1).
    { rewrite <- Hid in Hrun. by eapply step_intern. }
    assert (Hwf1 : heap_wf h1) by (by eapply heap_wf_step).
    apply IH; [by eapply heap_wf_steps |].
    assert (Hm1 : from_cache (<[CreateEmoteResult.name r := ptr]> emotes) h1).
    { destruct (cachedOrMake_cases (CreateEmoteResult.emote r)
                  (CreateEmoteResult.id r) h)
        as [(q & Hq & Hl & Heq) | (Hmiss & Heq)];
        rewrite Heq in Hrun; injection Hrun as <- <-.
      - intros k p [[_ <-] | [_ Hk]]%lookup_insert_Some; [|by apply (Hm k p)].
        destruct Hwf as [_ Hcache]. destruct (Hcache _ _ Hq) as [_ ->]. by split.
      - intros k p [[_ <-] | [_ Hk]]%lookup_insert_Some; simpl.
        + rewrite Hid. split; [apply lookup_insert_eq | set_solver].
        + destruct (Hm k p Hk) as [Hc Hl]. split; [|set_solver].
          rewrite lookup_insert_ne; [done|].
          intros Heq'. rewrite <- Heq' in Hc. by destruct (Hmiss p Hc). }
    intros k p Hk. destruct (Hm1 k p Hk) as [Hc Hl].
    split; [by rewrite Hc2 | by eapply Hkeep].
Qed.

(** C4 (amended). The batch builder materializes records through the intern
    cache; Add does not. A materialization through the cache returns the
    instance returned before for the same identifier as long as that
    instance is still strongly referenced, whatever else happened to the
    heap in between; so two builds store the same pointer for records of the
    same identifier while the first is live. Add allocates a fresh record
    and leaves the cache as it was. *)
Theorem intern_cache_dedup :
  (∀ h0 e1 id p1 h1 h2 e2,
     heap_wf h0 →
     cachedOrMake e1 id h0 = Ok (p1, h1) →
     rtc step h1 h2 →
     address p1 ∈ live h2 →
     cachedOrMake e2 id h2 = Ok (p1, h2)) ∧
  (∀ settings kind1 kind2 batch1 batch2 h0 m1 h1 h2 m2 h2' k1 p1 k2 p2,
     heap_wf h0 →
     parseEmotes settings batch1 kind1 h0 = Ok (m1, h1) →
     rtc step h1 h2 →
     parseEmotes settings batch2 kind2 h2 = Ok (m2, h2') →
     m1 !! k1 = Some p1 →
     m2 !! k2 = Some p2 →
     Emote.id (pointee p1) = Emote.id (pointee p2) →
     address p1 ∈ live h2 →
     p2 = p1) ∧
  (∀ settings map dispatch kind h emote published h',
     addEmote settings map dispatch kind h
     = Ok ((Some emote, published), h') →
     address emote = next_address h ∧ cache h' = cache h ∧
     (heap_wf h →
      (address emote ∉ live h) ∧
      ∀ id p, cache h !! id = Some p → address p ≠ address emote)).
Proof.
  split_and!.
  - intros h0 e1 id p1 h1 h2 e2 Hwf Hrun Hsteps Hlive.
    apply interned_hit; [|done].
    eapply interned_steps; [|done]. by eapply interned_first.
  - intros settings kind1 kind2 batch1 batch2 h0 m1 h1 h2 m2 h2' k1 p1 k2 p2
      Hwf Hb1 Hsteps Hb2 Hk1 Hk2 Hid Hlive.
    unfold parseEmotes in *.
    destruct (parseEmotes_loop_steps _ _ _ _ _ _ _ _ Hb1) as [Hs1 _].
    destruct (parseEmotes_loop_steps _ _ _ _ _ _ _ _ Hb2) as [Hs2 Hsub].
    specialize (Hsub (reflexivity _)).
    assert (Hwf1 : heap_wf h1) by (by eapply heap_wf_steps).
    assert (Hwf2 : heap_wf h2) by (by eapply heap_wf_steps).
    destruct (parseEmotes_loop_from_cache _ _ _ _ _ _ _ _ Hwf
                (from_cache_empty h0) Hb1 k1 p1 Hk1)
      as [Hc1 _].
    destruct (parseEmotes_loop_from_cache _ _ _ _ _ _ _ _ Hwf2
                (from_cache_empty h2) Hb2 k2 p2 Hk2)
      as [Hc2 _].
    assert (Hin : interned (Emote.id (pointee p1)) p1 h2').
    { eapply interned_steps; [|exact Hs2]. eapply interned_steps; [|exact Hsteps].
      split; [|done]. destruct Hwf1 as [_ Hcache]. by destruct (Hcache _ _ Hc1). }
    destruct Hin as [_ Hin]. rewrite Hid, Hc2 in Hin.
    assert (Some p2 = Some p1) as [= ->]; [|done].
    apply Hin. by apply Hsub.
  - intros settings map dispatch kind h emote published h'.
    rewrite addEmote_unfold. destruct (accepted _ _ _); [|done].
    cbv zeta. intros [= <- <- <-]. cbn [address cache].
    split_and!; [done | done |]. intros [Hlive Hcache]. split.
    + intros Hin%Hlive. lia.
    + intros id p Hp. destruct (Hcache id p Hp). lia.
Qed.

(** ** The invariant of a collection *)






Lemma parseEmotes_loop_by_cons reuse settings kind outside entry rest emotes h :
  parseEmotes_loop_by reuse settings kind outside (entry :: rest) emotes h =
  match accepted settings kind (Json.toObject entry) with
  | None => parseEmotes_loop_by reuse settings kind outside rest emotes h
  | Some r =>
      match cachedOrMakeEmotePtr_by reuse (CreateEmoteResult.emote r)
              (CreateEmoteResult.id r) h
      with
      | Ok (ptr, h1) =>
          match assign outside emotes (CreateEmoteResult.name r) ptr h1 with
          | Ok (emotes', h2) =>
              parseEmotes_loop_by reuse settings kind outside rest emotes' h2
          | Throw e => Throw e
          end
      | Throw e => Throw e
      end
  end.
Proof.
  cbn [parseEmotes_loop_by]. unfold accepted.
  fold (entry_data (Json.toObject entry)).
  destruct (Json.empty _ || negb _); [done|].
  destruct (createEmote_ok settings (Json.toObject entry)
              (entry_data (Json.toObject entry)) kind) as (r & _ & Hr & _).
  unfold mbind, lift. rewrite Hr.
  by destruct (CreateEmoteResult.hasImages r).
Qed.

(** With the test that always reuses, the open form is the builder. *)
Lemma parseEmotes_by_always settings batch kind h :
  parseEmotes_by (λ _ _, true) settings batch kind h
  = parseEmotes settings batch kind h.
Proof.
  unfold parseEmotes_by, parseEmotes. generalize (live h) as outside.
  generalize (∅ : EmoteMap) as emotes. revert h.
  induction batch as [|entry rest IH]; intros h emotes outside; [done|].
  rewrite parseEmotes_loop_by_cons, parseEmotes_loop_cons.
  destruct (accepted _ _ _) as [r|]; [|apply IH].
  assert (Hsame : cachedOrMakeEmotePtr_by (λ _ _, true)
                    (CreateEmoteResult.emote r) (CreateEmoteResult.id r) h
                  = cachedOrMake (CreateEmoteResult.emote r)
                      (CreateEmoteResult.id r) h).
  { unfold cachedOrMakeEmotePtr_by, cachedOrMake, cachedOrMakeEmotePtr.
    by destruct (cache h !! CreateEmoteResult.id r ≫= lock h). }
  rewrite Hsame. destruct (cachedOrMake _ _ h) as [[ptr h1]|]; [|done].
  destruct (assign _ _ _ _ h1) as [[emotes' h2]|]; [apply IH | done].
Qed.





(** ** What a build stores *)

Lemma checkEmoteVisibility_true settings emoteData kind :
  checkEmoteVisibility settings emoteData kind = true ↔
  (Json.toBool (Json.value emoteData "listed") = true
   ∨ showUnlistedSevenTVEmotes settings = true) ∧
  (kind = Personal →
   Json.contains (Json.toArray (Json.value emoteData "state")) "PERSONAL"
   = true) ∧
  has_ContentTwitchDisallowed (Json.toInt (Json.value emoteData "flags") 0)
  = false.
Proof.
  unfold checkEmoteVisibility.
  destruct (Json.toBool _), (showUnlistedSevenTVEmotes settings), kind,
    (Json.contains _ _), (has_ContentTwitchDisallowed _); simpl;
    (split; [try done; intros _; split_and!; auto; done
            | try done; intros (H1 & H2 & H3); try done;
              try (by destruct H1); try (by specialize (H2 eq_refl))]).
Qed.

Lemma accepted_None settings kind activeEmote :
  accepted settings kind activeEmote = None ↔
  Json.empty (entry_data activeEmote) = true
  ∨ checkEmoteVisibility settings (entry_data activeEmote) kind = false
  ∨ ∃ r, createEmote settings activeEmote (entry_data activeEmote) kind = Ok r
         ∧ CreateEmoteResult.hasImages r = false.
Proof.
  unfold accepted.
  destruct (createEmote_ok settings activeEmote (entry_data activeEmote) kind)
    as (r & _ & Hr & _). rewrite Hr.
  destruct (Json.empty _); [by split; [left|] |].
  destruct (checkEmoteVisibility _ _ _); [|by split; [right; left|]].
  destruct (CreateEmoteResult.hasImages r) eqn:Hh; simpl; split.
  - done.
  - intros [? | [? | (r' & [= <-] & ?)]]; congruence.
  - intros _. right. right. by exists r.
  - done.
Qed.

Lemma parseEmotes_loop_skip settings kind outside pre entry post emotes h :
  accepted settings kind (Json.toObject entry) = None →
  parseEmotes_loop settings kind outside (pre ++ entry :: post)%list emotes h
  = parseEmotes_loop settings kind outside (pre ++ post)%list emotes h.
Proof.
  intros Hnone. revert emotes h.
  induction pre as [|e pre IH]; intros emotes h.
  - simpl app. by rewrite parseEmotes_loop_cons, Hnone.
  - rewrite <- !app_comm_cons, !parseEmotes_loop_cons.
    destruct (accepted _ _ (Json.toObject e)); [|apply IH].
    destruct (cachedOrMake _ _ h) as [[ptr h1]|]; [|done].
    destruct (assign _ _ _ _ h1) as [[emotes' h2]|]; [apply IH | done].
Qed.

Lemma parseEmotes_loop_stored settings kind outside entries emotes h m h' :
  parseEmotes_loop settings kind outside entries emotes h = Ok (m, h') →
  ∀ k p, m !! k = Some p →
    emotes !! k = Some p ∨
    ∃ entry r, entry ∈ entries ∧
               accepted settings kind (Json.toObject entry) = Some r ∧
               CreateEmoteResult.name r = k.
Proof.
  revert emotes h. induction entries as [|entry rest IH]; intros emotes h.
  - intros [= <- <-] k p Hk. by left.
  - rewrite parseEmotes_loop_cons.
    destruct (accepted _ _ _) as [r|] eqn:Hacc.
    + destruct (cachedOrMake _ _ h) as [[ptr h1]|]; [|done].
      destruct (assign _ _ _ _ h1) as [[emotes' h2]|] eqn:Hassign; [|done].
      apply assign_step in Hassign as (-> & _).
      intros Hrun k p Hk.
      destruct (IH _ _ Hrun k p Hk) as [Hold | (e & r' & He & Hr' & Hn)].
      * apply lookup_insert_Some in Hold as [[<- _] | [_ Hold]]; [|by left].
        right. exists entry, r. split_and!; [apply list_elem_of_here | done..].
      * right. exists e, r'. split_and!; [by apply list_elem_of_further | done..].
    + intros Hrun k p Hk.
      destruct (IH _ _ Hrun k p Hk) as [Hold | (e & r' & He & Hr' & Hn)];
        [by left|].
      right. exists e, r'. split_and!; [by apply list_elem_of_further | done..].
Qed.

Lemma materialized_for_further settings kind entry rest h id p :
  materialized_for settings kind rest h id p →
  materialized_for settings kind (entry :: rest) h id p.
Proof.
  intros [Hc | (Hnew & e & r & Hin & Hrest)]; [by left | right].
  split; [done|]. exists e, r. split; [by apply list_elem_of_further | done].
Qed.

Lemma parseEmotes_loop_provenance settings kind outside entries emotes h m h' :
  parseEmotes_loop settings kind outside entries emotes h = Ok (m, h') →
  ∀ k p, m !! k = Some p →
    emotes !! k = Some p ∨
    ∃ entry r, entry ∈ entries ∧
               accepted settings kind (Json.toObject entry) = Some r ∧
               CreateEmoteResult.name r = k ∧
               materialized_for settings kind entries h
                 (CreateEmoteResult.id r) p.
Proof.
  revert emotes h. induction entries as [|entry rest IH]; intros emotes h.
  - intros [= <- <-] k p Hk. by left.
  - rewrite parseEmotes_loop_cons.
    destruct (accepted _ _ _) as [r|] eqn:Hacc.
    + destruct (cachedOrMake _ _ h) as [[ptr h1]|] eqn:Hc; [|done].
      destruct (assign _ _ _ _ h1) as [[emotes' h2]|] eqn:Hassign; [|done].
      apply assign_step in Hassign as (-> & _ & Hcache2 & Hnext2 & _).
      intros Hrun k p Hk.
      assert (Hptr : materialized_for settings kind (entry :: rest) h
                       (CreateEmoteResult.id r) ptr
                     ∧ next_address h ≤ next_address h1
                     ∧ ∀ id q, cache h1 !! id = Some q →
                               cache h !! id = Some q
                               ∨ (id = CreateEmoteResult.id r ∧ q = ptr
                                  ∧ address ptr = next_address h
                                  ∧ pointee ptr = CreateEmoteResult.emote r)).
      { destruct (cachedOrMake_cases (CreateEmoteResult.emote r)
                    (CreateEmoteResult.id r) h)
          as [(q & Hq & _ & Heq) | (_ & Heq)];
          rewrite Heq in Hc; injection Hc as <- <-.
        - split_and!; [by left | done | by left].
        - split_and!; cbn [next_address cache address pointee].
          + right. split; [done|]. exists entry, r.
            split; [apply list_elem_of_here | done].
          + lia.
          + intros id q [[<- <-] | [_ Hq]]%lookup_insert_Some;
              [by right | by left]. }
      destruct Hptr as (Hptr & Hmono & Hcache1).
      destruct (IH _ _ Hrun k p Hk) as [Hold | (e & r' & He & Hr' & Hn & Hm)].
      * apply lookup_insert_Some in Hold as [[<- <-] | [_ Hold]]; [|by left].
        right. exists entry, r. split; [apply list_elem_of_here | done].
      * right. exists e, r'. split; [by apply list_elem_of_further|].
        split; [done|]. split; [done|].
        destruct Hm as [Hc' | (Hnew & e0 & r0 & He0 & Hr0)].
        -- rewrite Hcache2 in Hc'.
           destruct (Hcache1 _ _ Hc') as [Hbefore | (Hid & -> & Haddr & Hp)];
             [by left | right].
           split; [lia|]. exists entry, r.
           split; [apply list_elem_of_here | done].
        -- right. split; [lia|]. exists e0, r0.
           split; [by apply list_elem_of_further | done].
    + intros Hrun k p Hk.
      destruct (IH _ _ Hrun k p Hk) as [Hold | (e & r' & He & Hr' & Hn & Hm)];
        [by left|].
      right. exists e, r'. split; [by apply list_elem_of_further|].
      split; [done|]. split; [done|]. by apply materialized_for_further.
Qed.

Lemma parseEmotes_loop_images settings kind outside entries emotes h m h' :
  cache_has_images h →
  (∀ k p, emotes !! k = Some p → has_image1 (pointee p)) →
  parseEmotes_loop settings kind outside entries emotes h = Ok (m, h') →
  cache_has_images h' ∧ ∀ k p, m !! k = Some p → has_image1 (pointee p).
Proof.
  revert emotes h. induction entries as [|entry rest IH]; intros emotes h Hc Hm.
  - by intros [= <- <-].
  - rewrite parseEmotes_loop_cons.
    destruct (accepted _ _ _) as [r|] eqn:Hacc; [|by apply IH].
    destruct (accepted_names _ _ _ _ Hacc) as (_ & _ & _ & _ & Himg).
    destruct (cachedOrMake _ _ h) as [[ptr h1]|] eqn:Hrun; [|done].
    destruct (assign _ _ _ _ h1) as [[emotes' h2]|] eqn:Hassign; [|done].
    apply assign_step in Hassign as (-> & _ & Hcache2 & _).
    assert (H1 : cache_has_images h1 ∧ has_image1 (pointee ptr)).
    { destruct (cachedOrMake_cases (CreateEmoteResult.emote r)
                  (CreateEmoteResult.id r) h)
        as [(q & Hq & _ & Heq) | (_ & Heq)];
        rewrite Heq in Hrun; injection Hrun as <- <-.
      - split; [done | by eapply Hc].
      - split; [|done]. intros id q Hq. cbn [cache] in Hq.
        apply lookup_insert_Some in Hq as [[_ <-] | [_ Hq]];
          [done | by eapply Hc]. }
    destruct H1 as [Hc1 Hptr]. apply IH.
    + intros id q Hq. rewrite Hcache2 in Hq. by eapply Hc1.
    + intros k p [[_ <-] | [_ Hk]]%lookup_insert_Some; [done | by eapply Hm].
Qed.

(** C8. Every record in the collection returned by the batch builder comes
    from an entry of the batch that had metadata, passed the visibility
    policy (listed, or unlisted emotes are shown; tagged PERSONAL when the
    set is personal; not disallowed on the platform) and whose built record
    has a non-empty primary image: the record is stored under the display
    name of that entry and is what the intern cache gave for the entry's
    identifier, the record it held when the build started or one allocated
    during the build from the record built for an accepted entry with that
    identifier. As the cache only ever receives records that passed the
    test on images, a property every build keeps, every stored record has a
    non-empty primary image. An entry failing one of the tests is skipped:
    the build is the build of the batch without it. *)
Theorem parseEmotes_stores_accepted settings batch kind h m h' :
  parseEmotes settings batch kind h = Ok (m, h') →
  (∀ k p, m !! k = Some p →
     ∃ entry r img,
       entry ∈ batch ∧
       entry_name (Json.toObject entry) = k ∧
       Json.empty (entry_data (Json.toObject entry)) = false ∧
       (Json.toBool (Json.value (entry_data (Json.toObject entry)) "listed")
        = true
        ∨ showUnlistedSevenTVEmotes settings = true) ∧
       (kind = Personal →
        Json.contains
          (Json.toArray (Json.value (entry_data (Json.toObject entry)) "state"))
          "PERSONAL" = true) ∧
       has_ContentTwitchDisallowed
         (Json.toInt (Json.value (entry_data (Json.toObject entry)) "flags") 0)
       = false ∧
       createEmote settings (Json.toObject entry)
         (entry_data (Json.toObject entry)) kind = Ok r ∧
       getImage1 (Emote.images (CreateEmoteResult.emote r)) = Some img ∧
       Image_isEmpty img = false ∧
       materialized_for settings kind batch h (CreateEmoteResult.id r) p) ∧
  (cache_has_images h →
   cache_has_images h' ∧
   ∀ k p, m !! k = Some p → has_image1 (pointee p)) ∧
  (∀ pre entry post,
     batch = (pre ++ entry :: post)%list →
     Json.empty (entry_data (Json.toObject entry)) = true
     ∨ checkEmoteVisibility settings (entry_data (Json.toObject entry)) kind
       = false
     ∨ (∃ r, createEmote settings (Json.toObject entry)
               (entry_data (Json.toObject entry)) kind = Ok r
             ∧ CreateEmoteResult.hasImages r = false) →
     parseEmotes settings (pre ++ post)%list kind h = Ok (m, h')).
Proof.
  intros Hrun. split_and!.
  - intros k p Hk.
    destruct (parseEmotes_loop_provenance _ _ _ _ _ _ _ _ Hrun k p Hk)
      as [Hempty | (entry & r & He & Hacc & Hname & Hfrom)].
    { by rewrite lookup_empty in Hempty. }
    destruct (accepted_names _ _ _ _ Hacc) as (Hn & _ & _ & _ & img & Himg & Hne).
    apply accepted_Some in Hacc as (Hdata & Hvis & Hc & _).
    apply checkEmoteVisibility_true in Hvis as (Hlisted & Hpersonal & Hflags).
    exists entry, r, img. split_and!; try done. congruence.
  - intros Hcache. eapply parseEmotes_loop_images; [done | | exact Hrun].
    intros k p Hk. by rewrite lookup_empty in Hk.
  - intros pre entry post -> Hfail. rewrite <- Hrun. unfold parseEmotes.
    symmetry. apply parseEmotes_loop_skip. by apply accepted_None.
Qed.

(** That the cache only holds records with a primary image is a property
    of the program: it holds of an empty cache; a materialization through
    the cache keeps it when the candidate has a primary image, as the
    candidates of the builder have; and the incremental operations,
    allocations and dropped references leave the cache as it is. *)
Lemma cache_has_images_kept settings kind h :
  (cache h = ∅ → cache_has_images h) ∧
  (cache_has_images h →
   (∀ emote id p h',
      has_image1 emote → cachedOrMake emote id h = Ok (p, h') →
      cache_has_images h' ∧ has_image1 (pointee p)) ∧
   (∀ map dispatch r c h',
      addEmote settings map dispatch kind h = Ok ((r, c), h') →
      cache_has_images h') ∧
   (∀ map dispatch r c h',
      updateEmote map dispatch kind h = Ok ((r, c), h') →
      cache_has_images h') ∧
   (∀ map dispatch r c h',
      removeEmote map dispatch h = Ok ((r, c), h') →
      cache_has_images h') ∧
   (∀ a, cache_has_images (release a h)) ∧
   (∀ (T : Type) (x : T) p h',
      make_shared x h = Ok (p, h') → cache_has_images h')).
Proof.
  split.
  - intros Hempty id p Hp. rewrite Hempty in Hp. by rewrite lookup_empty in Hp.
  - intros Hc. split_and!.
    + intros emote id p h' Himg Hrun.
      destruct (cachedOrMake_cases emote id h)
        as [(q & Hq & _ & Heq) | (_ & Heq)];
        rewrite Heq in Hrun; injection Hrun as <- <-.
      * split; [done | by eapply Hc].
      * split; [|done]. intros id' q Hq. cbn [cache] in Hq.
        apply lookup_insert_Some in Hq as [[_ <-] | [_ Hq]];
          [done | by eapply Hc].
    + intros map dispatch r c h'. rewrite addEmote_unfold.
      destruct (accepted _ _ _); cbv zeta; by intros [= <- <- <-].
    + intros map dispatch r c h' Hrun.
      destruct (findEmote (pointee map) (EmoteUpdateDispatch.emoteName dispatch)
                  (EmoteUpdateDispatch.emoteID dispatch))
        as [[key old]|] eqn:Hf.
      * rewrite (updateEmote_found _ _ _ _ _ _ Hf) in Hrun. cbv zeta in Hrun.
        by injection Hrun as <- <- <-.
      * rewrite (updateEmote_missed _ _ _ _ Hf) in Hrun.
        by injection Hrun as <- <- <-.
    + intros map dispatch r c h' Hrun.
      destruct (findEmote (pointee map) (EmoteRemoveDispatch.emoteName dispatch)
                  (EmoteRemoveDispatch.emoteID dispatch))
        as [[key old]|] eqn:Hf.
      * rewrite (removeEmote_found _ _ _ _ _ Hf) in Hrun.
        by injection Hrun as <- <- <-.
      * rewrite (removeEmote_missed _ _ _ Hf) in Hrun.
        by injection Hrun as <- <- <-.
    + done.
    + by intros T x p h' [= <- <-].
Qed.

(** ** Totality *)

Lemma parseEmotes_loop_total settings kind outside entries emotes h :
  ∃ m h', parseEmotes_loop settings kind outside entries emotes h = Ok (m, h').
Proof.
  revert emotes h. induction entries as [|entry rest IH]; intros emotes h.
  - by exists emotes, h.
  - rewrite parseEmotes_loop_cons.
    destruct (accepted _ _ _) as [r|]; [|apply IH].
    destruct (cachedOrMake_cases (CreateEmoteResult.emote r)
                (CreateEmoteResult.id r) h)
      as [(q & _ & _ & ->) | (_ & ->)];
      match goal with
      | |- context [assign ?o ?e ?n ?p ?h1] =>
          destruct (assign_cases o e n p h1) as (h2 & -> & _)
      end; apply IH.
Qed.

Lemma fillSizes_unmatched target url files st :
  matching target files = [] → fillSizes target url files st = Ok st.
Proof.
  induction files as [|fileItem rest IH]; [done|].
  rewrite matching_cons. cbn [fillSizes].
  destruct (length (sizes st) <=? nextSize st); [done|].
  destruct (String.eqb _ target); [done | apply IH].
Qed.

Lemma no_match_no_images settings activeEmote emoteData kind r :
  matching (targetFormat (ALLOW_AVIF_IMAGES settings) (host_files emoteData))
    (host_files emoteData) = [] →
  createEmote settings activeEmote emoteData kind = Ok r →
  CreateEmoteResult.hasImages r = false.
Proof.
  intros Hnone. unfold createEmote, createImageSet, imageSizes.
  fold (host_files emoteData).
  rewrite (fillSizes_unmatched _ _ _ _ Hnone). cbn. by intros [= <-].
Qed.


(** ** More on variant selection *)

Lemma fillSizes_slots target url files st :
  length (sizes st) = 4 → nextSize st ≤ 4 →
  ∃ st', fillSizes target url files st = Ok st'
     ∧ nextSize st' = Nat.min 4 (nextSize st + length (matching target files))
     ∧ length (sizes st') = 4
     ∧ (∀ i, i < nextSize st → sizes st' !! i = sizes st !! i)
     ∧ (∀ j f, matching target files !! j = Some f → nextSize st + j < 4 →
          ∃ scale, sizes st' !! (nextSize st + j)
                   = Some (file_image url f scale))
     ∧ (∀ i, nextSize st + length (matching target files) ≤ i →
          sizes st' !! i = sizes st !! i).
Proof.
  revert st. induction files as [|fileItem rest IH]; intros [a bw n] Hlen Hn;
    cbn [sizes baseWidth nextSize fillSizes] in *.
  - eexists. split; [reflexivity|]. cbn [sizes nextSize].
    change (matching target []) with (@nil QJsonObject).
    cbn [length]. rewrite Nat.add_0_r, Nat.min_r by done.
    split_and!; done.
  - rewrite Hlen, matching_cons.
    destruct (Nat.leb_spec 4 n) as [Hfull|Hroom].
    + eexists. split; [reflexivity|]. cbn [sizes nextSize].
      rewrite Nat.min_l by lia. assert (n = 4) as -> by lia.
      split_and!; [done | done | done | intros; lia | done].
    + destruct (String.eqb _ target); simpl negb; cbv iota.
      * destruct (scale_of bw _) as [scale base'].
        rewrite array_at_put_lt by lia. cbn [rbind].
        set (img := file_image url (Json.toObject fileItem) scale).
        destruct (IH (mkSlots (<[n:=img]> a) base' (S n)))
          as (st' & Hrun & Hnext & Hl & Hlow & Hmid & Hhigh); cbn [sizes nextSize];
          [by rewrite length_insert | lia |].
        cbn [sizes nextSize] in *. exists st'.
        replace (n + length (Json.toObject fileItem :: matching target rest))
          with (S n + length (matching target rest)) by (cbn [length]; lia).
        split_and!; [done | done | done | | |].
        -- intros i Hi. rewrite Hlow by lia. apply list_lookup_insert_ne. lia.
        -- intros [|j] f Hf Hj; simpl in Hf.
           ++ injection Hf as <-. exists scale.
              rewrite Nat.add_0_r, Hlow by lia.
              apply list_lookup_insert_eq. lia.
           ++ replace (n + S j) with (S n + j) by lia. apply Hmid; [done | lia].
        -- intros i Hi. rewrite Hhigh by lia. apply list_lookup_insert_ne. lia.
      * destruct (IH (mkSlots a bw n)) as (st' & Hrun & Hrest); [done..|].
        exists st'. by split.
Qed.

Lemma matching_formats target files f :
  f ∈ matching target files →
  Json.toString (Json.value f "format") = target.
Proof.
  unfold matching. intros Hin%list_elem_of_In%filter_In. destruct Hin as [_ Heq].
  by apply String.eqb_eq.
Qed.

Lemma imageSizes_slots allow emoteData :
  let ms := matching (targetFormat allow (host_files emoteData))
              (host_files emoteData) in
  (ms = [] → imageSizes allow emoteData = Ok None) ∧
  (ms ≠ [] →
   ∃ a, imageSizes allow emoteData = Ok (Some a) ∧ length a = 4 ∧
        (∀ i f, ms !! i = Some f → i < 4 →
           ∃ scale, slot a i = file_image (host_url emoteData) f scale) ∧
        (∀ i, length ms ≤ i → i < 4 → slot a i = Image_getEmpty)).
Proof.
  intros ms. unfold imageSizes.
  fold (host_files emoteData) (host_url emoteData).
  fold ms.
  destruct (fillSizes_slots (targetFormat allow (host_files emoteData))
              (host_url emoteData) (host_files emoteData) Slots_init)
    as (st & -> & Hnext & Hlen & _ & Hmid & Hhigh); [done | simpl; lia |].
  fold ms in Hnext, Hmid, Hhigh. cbn [rbind nextSize sizes Slots_init] in *.
  cbn [Nat.add] in Hnext, Hmid, Hhigh.
  rewrite Hlen. split.
  - intros Hnone. rewrite Hnone in Hnext. cbn in Hnext. by rewrite Hnext.
  - intros Hsome.
    assert (Hpos : 0 < length ms) by (destruct ms; [done | simpl; lia]).
    destruct (Nat.ltb_spec (nextSize st) 4) as [Hlt|Hge].
    + destruct (Nat.eqb_spec (nextSize st) 0) as [Hz|_]; [lia|].
      destruct (padSizes_spec (4 - nextSize st) (sizes st) (nextSize st))
        as (a & -> & Hl & Hkeep & Hpad); [lia|].
      exists a. cbn [rbind]. unfold slot. split_and!; [done | lia | |].
      * intros i f Hf Hi. apply lookup_lt_Some in Hf as Hlt'.
        destruct (Hmid i f Hf Hi) as (scale & Hs). exists scale.
        rewrite Hkeep by lia. by rewrite Hs.
      * intros i Hi Hi'. by rewrite Hpad by lia.
    + exists (sizes st). unfold slot. split_and!; [done | done | |].
      * intros i f Hf Hi. destruct (Hmid i f Hf Hi) as (scale & Hs).
        exists scale. by rewrite Hs.
      * intros i Hi Hi'. lia.
Qed.

(** X1. Whatever the payload, the three images of the variant set are never
    null: consumers may dereference them. *)
Theorem createImageSet_never_null allow emoteData :
  ∃ s i1 i2 i3,
    createImageSet allow emoteData = Ok s ∧
    getImage1 s = Some i1 ∧ getImage2 s = Some i2 ∧ getImage3 s = Some i3.
Proof.
  unfold createImageSet.
  destruct (imageSizes_ok allow emoteData)
    as [-> | (a & -> & _ & _ & Hall)].
  - by exists ImageSet_default, Image_empty, Image_empty, Image_empty.
  - cbn [rbind].
    destruct (Hall 0) as (i1 & H0); [lia|].
    destruct (Hall 1) as (i2 & H1); [lia|].
    destruct (Hall 2) as (i3 & H2); [lia|].
    destruct (Hall 3) as (i4 & H3); [lia|].
    exists (mkImageSet (slot a 0) (slot a 1) (resolveLargest a)), i1, i2,
      (if Image_isEmpty i4 then i3 else i4).
    split; [reflexivity|]. cbn [getImage1 getImage2 getImage3].
    unfold resolveLargest, slot. rewrite H0, H1, H2, H3. cbn.
    split_and!; [done | done |]. by destruct (Image_isEmpty i4).
Qed.

(** X2. Every image of the variant set that is not the empty placeholder is
    built from a file of the payload that declares the chosen format, in
    the order of the file list: slot i holds the i-th such file or, when
    there are fewer, the placeholder. In particular no AVIF file is used
    when AVIF support is off. *)
Theorem imageSizes_sources allow emoteData f0 rest :
  matching (targetFormat allow (host_files emoteData)) (host_files emoteData)
  = f0 :: rest →
  ∃ a, imageSizes allow emoteData = Ok (Some a) ∧
       (∀ i f, (f0 :: rest) !! i = Some f → i < 4 →
          Json.toString (Json.value f "format")
          = targetFormat allow (host_files emoteData) ∧
          (allow = false → Json.toString (Json.value f "format") = "WEBP") ∧
          ∃ scale, slot a i = file_image (host_url emoteData) f scale) ∧
       (∀ i, S (length rest) ≤ i → i < 4 → slot a i = Image_getEmpty).
Proof.
  intros Hm.
  destruct (imageSizes_slots allow emoteData) as [_ Hsome].
  rewrite Hm in Hsome. destruct Hsome as (a & Hrun & _ & Hfill & Hpad); [done|].
  exists a. split_and!; [done | | done].
  intros i f Hf Hi.
  assert (Hfmt : Json.toString (Json.value f "format")
                 = targetFormat allow (host_files emoteData)).
  { apply (matching_formats _ (host_files emoteData)). rewrite Hm.
    by eapply list_elem_of_lookup_2. }
  split_and!; [done | | by apply Hfill].
  intros ->. by rewrite Hfmt.
Qed.

(** X3. The record built for an entry has images exactly when some file of
    the payload declares the chosen format. *)
Theorem createEmote_hasImages settings activeEmote emoteData kind :
  ∃ r, createEmote settings activeEmote emoteData kind = Ok r ∧
       (CreateEmoteResult.hasImages r = true ↔
        matching
          (targetFormat (ALLOW_AVIF_IMAGES settings) (host_files emoteData))
          (host_files emoteData) ≠ []).
Proof.
  destruct (createEmote_ok settings activeEmote emoteData kind)
    as (r & img & Hr & _ & _ & _ & _ & Himg & Hhas).
  exists r. split; [done|]. split.
  - intros Htrue Hnone.
    rewrite (no_match_no_images _ _ _ _ _ Hnone Hr) in Htrue. done.
  - intros Hsome.
    destruct (imageSizes_slots (ALLOW_AVIF_IMAGES settings) emoteData)
      as [_ Hfill].
    destruct (Hfill Hsome) as (a & Hrun & _ & Hslots & _).
    destruct (matching _ _) as [|f0 ms] eqn:Hm; [done|].
    destruct (Hslots 0 f0) as (scale & H0); [done | lia |].
    unfold createEmote, createImageSet in Hr. rewrite Hrun in Hr.
    cbn [rbind Emote.images getImage1] in Hr. rewrite H0 in Hr.
    cbn in Hr. by injection Hr as <-.
Qed.

(** X4. The largest variant follows the number of files of the chosen
    format: with one or two of them it is the empty placeholder (and with
    one the second image is the placeholder too), with exactly three it is
    the third, and with four or more it is the fourth. *)
Theorem largest_variant allow emoteData :
  let ms := matching (targetFormat allow (host_files emoteData))
              (host_files emoteData) in
  ∃ s, createImageSet allow emoteData = Ok s ∧
       (length ms = 1 → getImage2 s = Image_getEmpty) ∧
       (length ms = 1 ∨ length ms = 2 → getImage3 s = Image_getEmpty) ∧
       (∀ f, length ms = 3 → ms !! 2 = Some f →
          ∃ scale, getImage3 s = file_image (host_url emoteData) f scale) ∧
       (∀ f, ms !! 3 = Some f →
          ∃ scale, getImage3 s = file_image (host_url emoteData) f scale).
Proof.
  intros ms. unfold createImageSet.
  destruct (imageSizes_slots allow emoteData) as [Hnone Hsome]. fold ms in Hnone, Hsome.
  destruct ms as [|f0 rest] eqn:Hms.
  - rewrite Hnone by done. eexists. split; [reflexivity|].
    split_and!; [done | by intros [|] | done | done].
  - destruct Hsome as (a & -> & _ & Hfill & Hpad); [done|].
    eexists. split; [reflexivity|]. cbn [rbind getImage2 getImage3].
    split_and!.
    + intros Hlen. apply Hpad; lia.
    + intros Hlen. unfold resolveLargest.
      rewrite (Hpad 3) by lia. cbn. apply Hpad; lia.
    + intros f Hlen Hf. unfold resolveLargest.
      rewrite (Hpad 3) by lia. cbn. by apply Hfill; [|lia].
    + intros f Hf. destruct (Hfill 3 f Hf) as (scale & H3); [lia|].
      exists scale. unfold resolveLargest. by rewrite H3.
Qed.

Lemma fillSizes_full target url files st :
  length (sizes st) ≤ nextSize st → fillSizes target url files st = Ok st.
Proof.
  intros Hfull. destruct files as [|fileItem rest]; [done|].
  cbn [fillSizes]. by destruct (Nat.leb_spec (length (sizes st)) (nextSize st)); [|lia].
Qed.

Lemma fillSizes_app target url files extra st :
  fillSizes target url (files ++ extra) st
  = rbind (fillSizes target url files st) (fillSizes target url extra).
Proof.
  revert st. induction files as [|fileItem rest IH]; intros st; [done|].
  rewrite <- app_comm_cons. cbn [fillSizes].
  destruct (Nat.leb_spec (length (sizes st)) (nextSize st)) as [Hfull|_].
  - cbn [rbind]. by rewrite fillSizes_full.
  - destruct (negb _); [apply IH|].
    destruct (scale_of _ _) as [scale base'].
    destruct (array_at_put _ _ _); [apply IH | done].
Qed.

Lemma matching_length target files :
  length (matching target files) ≤ length files.
Proof.
  induction files as [|fileItem rest IH]; [done|].
  rewrite matching_cons. destruct (String.eqb _ target); simpl; lia.
Qed.

Lemma targetFormat_app allow files extra :
  2 ≤ length files →
  targetFormat allow (files ++ extra) = targetFormat allow files.
Proof.
  destruct files as [|f1 [|f2 rest]]; simpl; intros Hlen; try lia.
  reflexivity.
Qed.

(** X5. Files after the fourth one of the chosen format are never looked
    at: appending anything to a file list that already holds four such
    files leaves the variant set as it is. *)
Theorem createImageSet_ignores_rest allow emoteData emoteData' extra :
  host_url emoteData' = host_url emoteData →
  host_files emoteData' = (host_files emoteData ++ extra)%list →
  4 ≤ length (matching (targetFormat allow (host_files emoteData))
                (host_files emoteData)) →
  createImageSet allow emoteData' = createImageSet allow emoteData.
Proof.
  intros Hurl Hfiles Hfour. unfold createImageSet, imageSizes.
  fold (host_files emoteData) (host_url emoteData)
       (host_files emoteData') (host_url emoteData').
  rewrite Hurl, Hfiles.
  pose proof (matching_length (targetFormat allow (host_files emoteData))
                (host_files emoteData)) as Hle.
  rewrite targetFormat_app by lia. rewrite fillSizes_app.
  destruct (fillSizes_slots (targetFormat allow (host_files emoteData))
              (host_url emoteData) (host_files emoteData) Slots_init)
    as (st & -> & Hnext & Hlen & _); [done | simpl; lia |].
  cbn [rbind]. rewrite (fillSizes_full _ _ extra st); [done|].
  rewrite Hlen, Hnext. simpl nextSize. lia.
Qed.

(** X5 at a sample: four WEBP files, then a fifth. *)
Lemma createImageSet_ignores_rest_witness :
  createImageSet false (sample_data sample_five_files)
  = createImageSet false (sample_data (take 4 sample_five_files)).
Proof.
  apply (createImageSet_ignores_rest false
           (sample_data (take 4 sample_five_files))
           (sample_data sample_five_files)
           [sample_named_file "5x" 160]); [reflexivity | reflexivity |].
  vm_compute. lia.
Defined.

(** X2 at a sample: the three WEBP files of widths 1, 2 and 3. *)
Lemma imageSizes_sources_witness :
  ∃ a, imageSizes false variant_fallback = Ok (Some a) ∧
       slot a 3 = Image_getEmpty.
Proof.
  destruct (imageSizes_sources false variant_fallback
              (Json.toObject (sample_file "WEBP" 1))
              [Json.toObject (sample_file "WEBP" 2);
               Json.toObject (sample_file "WEBP" 3)])
    as (a & Hrun & _ & Hpad); [reflexivity|].
  exists a. split; [exact Hrun|]. apply Hpad; simpl; lia.
Defined.

(** ** More on records *)

(** X6. The record built for an entry is consistent: it has a base name
    exactly when the display name differs from the name in the metadata,
    the base name is then that name and never the display name itself, the
    tooltip is the one that goes with its fields and the link is the
    emote's page. *)
Theorem createEmote_consistent settings activeEmote emoteData kind :
  ∃ r, createEmote settings activeEmote emoteData kind = Ok r ∧
       let e := CreateEmoteResult.emote r in
       (Emote.baseName e = None ↔
        entry_name activeEmote = Json.toString (Json.value emoteData "name")) ∧
       (∀ b, Emote.baseName e = Some b →
             b = Json.toString (Json.value emoteData "name") ∧
             b ≠ Emote.name e) ∧
       Emote.tooltip e = tooltip_of e kind ∧
       Emote.homePage e = EMOTE_LINK_FORMAT (Emote.id e).
Proof.
  unfold createEmote.
  destruct (createImageSet_ok (ALLOW_AVIF_IMAGES settings) emoteData)
    as (s & img & -> & Himg).
  cbn [rbind Emote.images]. rewrite Himg. cbn [ImagePtr_isEmpty rbind].
  eexists. split; [reflexivity|].
  cbn [CreateEmoteResult.emote]. unfold tooltip_of.
  cbn [Emote.baseName Emote.name Emote.tooltip Emote.homePage Emote.id
       Emote.author].
  fold (entry_name activeEmote).
  destruct (String.eqb_spec (entry_name activeEmote)
              (Json.toString (Json.value emoteData "name"))) as [Heq|Hne];
    cbn [negb makeConditionedOptional].
  - split_and!; [done | done | done | done].
  - split_and!; [done | | done | done].
    intros b [= <-]. split; [done | congruence].
Qed.

(** X7. An Update always leaves a consistent record, whatever the record it
    replaces: the tooltip of the replacement is the one that goes with its
    name, base name and author, and the link still belongs to the
    identifier when it did before. *)
Theorem updatedEmote_consistent old dispatch kind :
  Emote.tooltip (updatedEmote old dispatch kind)
  = tooltip_of (updatedEmote old dispatch kind) kind
  ∧ (Emote.homePage old = EMOTE_LINK_FORMAT (Emote.id old) →
     Emote.homePage (updatedEmote old dispatch kind)
     = EMOTE_LINK_FORMAT (Emote.id (updatedEmote old dispatch kind))).
Proof.
  unfold updatedEmote, tooltip_of. cbv zeta.
  cbn [Emote.baseName Emote.name Emote.tooltip Emote.homePage Emote.id
       Emote.author].
  by destruct (toNonAliased old dispatch).
Qed.

Lemma updatedEmote_consistent_witness :
  Emote.homePage
    (updatedEmote sample_alias (EmoteUpdateDispatch.mk "1" "pog2") Channel)
  = EMOTE_LINK_FORMAT "1".
Proof.
  apply (proj2 (updatedEmote_consistent sample_alias
                  (EmoteUpdateDispatch.mk "1" "pog2") Channel)).
  reflexivity.
Defined.

(** X8. Renaming and renaming back restores the record: for a consistent
    record that is not an alias of itself, an Update to any display name
    followed by an Update to the original display name yields the original
    record, field by field. *)
Theorem rename_round_trip e kind id1 id2 newName :
  Emote.tooltip e = tooltip_of e kind →
  Emote.baseName e ≠ Some (Emote.name e) →
  updatedEmote
    (updatedEmote e (EmoteUpdateDispatch.mk id1 newName) kind)
    (EmoteUpdateDispatch.mk id2 (Emote.name e)) kind
  = e.
Proof.
  destruct e as [name images tooltip homePage zeroWidth id author baseName].
  unfold tooltip_of, updatedEmote, toNonAliased. cbn.
  intros -> Hself. destruct baseName as [b|]; cbn.
  - destruct (String.eqb_spec newName b) as [->|Hnb]; cbn.
    + destruct (String.eqb_spec name b) as [->|Hne]; [done|]. by cbn.
    + destruct (String.eqb_spec name b) as [->|Hne]; [done|]. by cbn.
  - rewrite String.eqb_refl. by cbn.
Qed.

Lemma rename_round_trip_witness :
  updatedEmote
    (updatedEmote sample_alias (EmoteUpdateDispatch.mk "1" "pog2") Channel)
    (EmoteUpdateDispatch.mk "1" "pog") Channel
  = sample_alias.
Proof.
  apply (rename_round_trip sample_alias Channel "1" "1" "pog2");
    [reflexivity | discriminate].
Defined.

(** X9. An Update that keeps the display name of a record without base name
    turns it into an alias of itself: the replacement's base name is its
    own display name and its tooltip is the aliased form. *)
Theorem update_same_name_self_alias old dispatch kind :
  Emote.baseName old = None →
  EmoteUpdateDispatch.emoteName dispatch = Emote.name old →
  let new := updatedEmote old dispatch kind in
  Emote.name new = Emote.name old ∧
  Emote.baseName new = Some (Emote.name new) ∧
  Emote.tooltip new
  = createAliasedTooltip (Emote.name old) (Emote.name old) (Emote.author old)
      kind.
Proof.
  intros Hbase Hname. unfold updatedEmote, toNonAliased.
  rewrite Hbase, Hname. by cbn.
Qed.

Lemma update_same_name_self_alias_witness :
  Emote.baseName
    (updatedEmote sample_base (EmoteUpdateDispatch.mk "1" "poggers") Channel)
  = Some "poggers".
Proof.
  apply (update_same_name_self_alias sample_base
           (EmoteUpdateDispatch.mk "1" "poggers") Channel);
    reflexivity.
Defined.

(** X10. Visibility is monotone. The kinds Global and Channel are treated
    alike, whatever is visible in a personal set is visible in a channel
    set, and showing unlisted emotes never hides an emote; the AVIF setting
    plays no part. *)
Theorem checkEmoteVisibility_monotone emoteData allowAvif allowAvif' unlisted :
  checkEmoteVisibility (mkSettings allowAvif unlisted) emoteData Global
  = checkEmoteVisibility (mkSettings allowAvif' unlisted) emoteData Channel
  ∧ (checkEmoteVisibility (mkSettings allowAvif unlisted) emoteData Personal
     = true →
     checkEmoteVisibility (mkSettings allowAvif' unlisted) emoteData Channel
     = true)
  ∧ (∀ kind,
       checkEmoteVisibility (mkSettings allowAvif false) emoteData kind = true →
       checkEmoteVisibility (mkSettings allowAvif' true) emoteData kind = true).
Proof.
  unfold checkEmoteVisibility. cbn [showUnlistedSevenTVEmotes kind_is_Personal].
  split_and!.
  - done.
  - destruct (negb (Json.toBool _) && negb unlisted); [done|].
    cbn [andb]. by destruct (negb (Json.contains _ _)).
  - intros kind. rewrite andb_false_r.
    by destruct (negb (Json.toBool _) && negb false).
Qed.

(** ** More on the incremental operations *)

(** X12. Add and then Remove is a round trip: when the display name was
    free, removing the emote that was just added, under its display name
    and its identifier, returns the very record Add returned and publishes
    a collection with the contents from before the Add. *)
Theorem add_then_remove settings map dispatch kind h emote c1 h1 :
  addEmote settings map dispatch kind h = Ok ((Some emote, c1), h1) →
  pointee map !! Emote.name (pointee emote) = None →
  ∃ c2 h2,
    removeEmote c1
      (EmoteRemoveDispatch.mk (Emote.id (pointee emote))
         (Emote.name (pointee emote))) h1
    = Ok ((Some emote, c2), h2) ∧
    pointee c2 = pointee map.
Proof.
  rewrite addEmote_unfold.
  destruct (accepted _ _ _) as [r|] eqn:Hacc; [|done].
  destruct (accepted_names _ _ _ _ Hacc) as (_ & _ & Hname & _).
  cbv zeta. intros [= <- <- <-]. cbn [pointee]. rewrite Hname. intros Hfree.
  eexists _, _. rewrite (removeEmote_found _ _ _ (CreateEmoteResult.name r)
                           (mk_shared (next_address h) (CreateEmoteResult.emote r))).
  - split; [reflexivity|]. cbn [pointee].
    by rewrite delete_insert_eq, delete_id.
  - unfold findEmote. cbn [pointee EmoteRemoveDispatch.emoteName].
    by rewrite lookup_insert_eq.
Qed.

(** X13. An Update that renames keeps the size of the collection. When
    the located record is stored under its own name and the new display
    name is that name or a free one, the old key is erased, the replacement
    is stored under the new name, and the size is the one before. *)
Theorem update_size map dispatch kind h key old :
  findEmote (pointee map) (EmoteUpdateDispatch.emoteName dispatch)
    (EmoteUpdateDispatch.emoteID dispatch) = Some (key, old) →
  key = Emote.name (pointee old) →
  EmoteUpdateDispatch.emoteName dispatch = key
  ∨ pointee map !! EmoteUpdateDispatch.emoteName dispatch = None →
  ∃ emote published h',
    updateEmote map dispatch kind h = Ok ((Some emote, published), h') ∧
    size (pointee published) = size (pointee map) ∧
    pointee published !! EmoteUpdateDispatch.emoteName dispatch = Some emote ∧
    (EmoteUpdateDispatch.emoteName dispatch ≠ key →
     pointee published !! key = None).
Proof.
  intros Hf Hkey Hnew. pose proof (findEmote_Some _ _ _ _ _ Hf) as Hold.
  rewrite (updateEmote_found _ _ _ _ _ _ Hf). cbv zeta.
  eexists _, _, _. split; [reflexivity|]. cbn [pointee]. rewrite <- Hkey.
  assert (Hsize : size (pointee map) ≠ 0).
  { intros Hz%map_size_empty_iff. rewrite Hz in Hold.
    by rewrite lookup_empty in Hold. }
  split_and!.
  - rewrite map_size_insert_None.
    + rewrite map_size_delete_Some by done. lia.
    + destruct Hnew as [-> | Hfree]; [apply lookup_delete_eq|].
      apply lookup_delete_None. by right.
  - apply lookup_insert_eq.
  - intros Hne. rewrite lookup_insert_ne by done. apply lookup_delete_eq.
Qed.

(** X14. Sizes under Add and Remove: an Add under a free display name grows
    the collection by one, and a Remove that locates a record shrinks it by
    one. *)
Theorem add_remove_size settings map kind h :
  (∀ dispatch emote published h',
     addEmote settings map dispatch kind h
     = Ok ((Some emote, published), h') →
     pointee map !! Emote.name (pointee emote) = None →
     size (pointee published) = S (size (pointee map))) ∧
  (∀ dispatch emote published h',
     removeEmote map dispatch h = Ok ((Some emote, published), h') →
     S (size (pointee published)) = size (pointee map)).
Proof.
  split.
  - intros dispatch emote published h'. rewrite addEmote_unfold.
    destruct (accepted _ _ _) as [r|] eqn:Hacc; [|done].
    destruct (accepted_names _ _ _ _ Hacc) as (_ & _ & Hname & _).
    cbv zeta. intros [= <- <- <-]. cbn [pointee]. rewrite Hname.
    intros Hfree. by apply map_size_insert_None.
  - intros dispatch emote published h' Hrun.
    destruct (findEmote (pointee map) (EmoteRemoveDispatch.emoteName dispatch)
                (EmoteRemoveDispatch.emoteID dispatch))
      as [[key e]|] eqn:Hf.
    + rewrite (removeEmote_found _ _ _ _ _ Hf) in Hrun.
      injection Hrun as <- <- <-. cbn [pointee].
      pose proof (findEmote_Some _ _ _ _ _ Hf) as Hold.
      rewrite map_size_delete_Some by done.
      assert (size (pointee map) ≠ 0); [|lia].
      intros Hz%map_size_empty_iff. rewrite Hz in Hold.
      by rewrite lookup_empty in Hold.
    + by rewrite (removeEmote_missed _ _ _ Hf) in Hrun.
Qed.

(** ** More on a build *)

Lemma cachedOrMake_id emote h p h' :
  heap_wf h →
  cachedOrMake emote (Emote.id emote) h = Ok (p, h') →
  Emote.id (pointee p) = Emote.id emote.
Proof.
  intros [_ Hcache] Hrun.
  destruct (cachedOrMake_cases emote (Emote.id emote) h)
    as [(q & Hq & _ & Heq) | (_ & Heq)];
    rewrite Heq in Hrun; injection Hrun as <- <-; [|done].
  by destruct (Hcache _ _ Hq).
Qed.

Lemma parseEmotes_loop_app settings kind outside pre rest emotes h m h' :
  parseEmotes_loop settings kind outside (pre ++ rest)%list emotes h
  = Ok (m, h') →
  ∃ m1 h1,
    parseEmotes_loop settings kind outside pre emotes h = Ok (m1, h1) ∧
    parseEmotes_loop settings kind outside rest m1 h1 = Ok (m, h').
Proof.
  revert emotes h. induction pre as [|e pre IH]; intros emotes h.
  - intros Hrun. by exists emotes, h.
  - rewrite <- app_comm_cons, !parseEmotes_loop_cons.
    destruct (accepted _ _ _); [|apply IH].
    destruct (cachedOrMake _ _ h) as [[ptr h1]|]; [|done].
    destruct (assign _ _ _ _ h1) as [[emotes' h2]|]; [apply IH | done].
Qed.

Lemma parseEmotes_loop_untouched settings kind outside entries emotes h m h' k :
  (∀ entry r, entry ∈ entries →
     accepted settings kind (Json.toObject entry) = Some r →
     CreateEmoteResult.name r ≠ k) →
  parseEmotes_loop settings kind outside entries emotes h = Ok (m, h') →
  m !! k = emotes !! k.
Proof.
  revert emotes h. induction entries as [|entry rest IH]; intros emotes h Hnone.
  - by intros [= <- <-].
  - rewrite parseEmotes_loop_cons.
    assert (Hrest : ∀ e r, e ∈ rest →
              accepted settings kind (Json.toObject e) = Some r →
              CreateEmoteResult.name r ≠ k).
    { intros e r He. apply Hnone. by apply list_elem_of_further. }
    destruct (accepted _ _ _) as [r|] eqn:Hacc; [|by apply IH].
    destruct (cachedOrMake _ _ h) as [[ptr h1]|]; [|done].
    destruct (assign _ _ _ _ h1) as [[emotes' h2]|] eqn:Hassign; [|done].
    apply assign_step in Hassign as (-> & _).
    intros Hrun. rewrite (IH _ _ Hrest Hrun).
    apply lookup_insert_ne. apply (Hnone entry r); [apply list_elem_of_here | done].
Qed.

Lemma parseEmotes_loop_wf settings kind outside entries emotes h m h' :
  heap_wf h →
  parseEmotes_loop settings kind outside entries emotes h = Ok (m, h') →
  heap_wf h'.
Proof.
  intros Hwf Hrun. eapply heap_wf_steps; [done|].
  by destruct (parseEmotes_loop_steps _ _ _ _ _ _ _ _ Hrun).
Qed.

Lemma parseEmotes_loop_last settings kind outside pre entry post emotes h m h' r :
  heap_wf h →
  parseEmotes_loop settings kind outside (pre ++ entry :: post)%list emotes h
  = Ok (m, h') →
  accepted settings kind (Json.toObject entry) = Some r →
  (∀ e r', e ∈ post →
     accepted settings kind (Json.toObject e) = Some r' →
     CreateEmoteResult.name r' ≠ CreateEmoteResult.name r) →
  ∃ p, m !! CreateEmoteResult.name r = Some p ∧
       Emote.id (pointee p) = CreateEmoteResult.id r.
Proof.
  intros Hwf Hrun Hacc Hlast.
  apply parseEmotes_loop_app in Hrun as (m1 & h1 & Hpre & Hrun).
  pose proof (parseEmotes_loop_wf _ _ _ _ _ _ _ _ Hwf Hpre) as Hwf1.
  rewrite parseEmotes_loop_cons, Hacc in Hrun.
  destruct (accepted_names _ _ _ _ Hacc) as (_ & _ & _ & Hid & _).
  destruct (cachedOrMake _ _ h1) as [[ptr h2]|] eqn:Hc; [|done].
  destruct (assign _ _ _ _ h2) as [[emotes' h3]|] eqn:Hassign; [|done].
  apply assign_step in Hassign as (-> & _).
  exists ptr. split.
  - rewrite (parseEmotes_loop_untouched _ _ _ _ _ _ _ _ _ Hlast Hrun).
    apply lookup_insert_eq.
  - rewrite <- Hid in Hc. rewrite (cachedOrMake_id _ _ _ _ Hwf1 Hc). done.
Qed.

Lemma last_named settings kind k batch :
  (∀ entry r, entry ∈ batch →
     accepted settings kind (Json.toObject entry) = Some r →
     CreateEmoteResult.name r ≠ k)
  ∨ ∃ pre entry post r,
      batch = (pre ++ entry :: post)%list ∧
      accepted settings kind (Json.toObject entry) = Some r ∧
      CreateEmoteResult.name r = k ∧
      ∀ e r', e ∈ post →
        accepted settings kind (Json.toObject e) = Some r' →
        CreateEmoteResult.name r' ≠ k.
Proof.
  induction batch as [|e rest IH].
  - left. intros entry r Hin. by apply elem_of_nil in Hin.
  - destruct IH as [Hnone | (pre & entry & post & r & -> & Hacc & Hname & Hlast)].
    + destruct (accepted settings kind (Json.toObject e)) as [r|] eqn:Hacc.
      * destruct (decide (CreateEmoteResult.name r = k)) as [Heq|Hne].
        -- right. by exists [], e, rest, r.
        -- left. intros entry r' [->|Hin]%elem_of_cons Hacc'; [congruence|].
           by eapply Hnone.
      * left. intros entry r' [->|Hin]%elem_of_cons Hacc'; [congruence|].
        by eapply Hnone.
    + right. by exists (e :: pre), entry, post, r.
Qed.

(** X15. No accepted entry is lost and the last one wins: the display name
    of every accepted entry of the batch is a key of the built collection,
    and the record stored under it carries the identifier of the last
    accepted entry with that display name. *)
Theorem parseEmotes_keys settings batch kind h m h' :
  heap_wf h →
  parseEmotes settings batch kind h = Ok (m, h') →
  (∀ entry r,
     entry ∈ batch →
     accepted settings kind (Json.toObject entry) = Some r →
     is_Some (m !! CreateEmoteResult.name r)) ∧
  (∀ pre entry post r,
     batch = (pre ++ entry :: post)%list →
     accepted settings kind (Json.toObject entry) = Some r →
     (∀ e r', e ∈ post →
        accepted settings kind (Json.toObject e) = Some r' →
        CreateEmoteResult.name r' ≠ CreateEmoteResult.name r) →
     ∃ p, m !! CreateEmoteResult.name r = Some p ∧
          Emote.id (pointee p) = CreateEmoteResult.id r).
Proof.
  intros Hwf Hrun. unfold parseEmotes in Hrun. split.
  - intros entry r Hin Hacc.
    destruct (last_named settings kind (CreateEmoteResult.name r) batch)
      as [Hnone | (pre & e & post & r' & -> & Hacc' & Hname & Hlast)].
    + by destruct (Hnone entry r Hin Hacc).
    + rewrite <- Hname in Hlast.
      destruct (parseEmotes_loop_last _ _ _ _ _ _ _ _ _ _ _ Hwf Hrun Hacc' Hlast)
        as (p & Hp & _).
      rewrite <- Hname. by exists p.
  - intros pre entry post r -> Hacc Hlast.
    by eapply parseEmotes_loop_last.
Qed.

Lemma parseEmotes_loop_cache_frame settings kind outside entries emotes h m h'
    id :
  parseEmotes_loop settings kind outside entries emotes h = Ok (m, h') →
  (∀ entry r, entry ∈ entries →
     accepted settings kind (Json.toObject entry) = Some r →
     CreateEmoteResult.id r ≠ id) →
  cache h' !! id = cache h !! id.
Proof.
  revert h emotes. induction entries as [|entry rest IH]; intros h emotes Hrun Hother.
  - by injection Hrun as <- <-.
  - rewrite parseEmotes_loop_cons in Hrun.
    assert (Hrest : ∀ e r, e ∈ rest →
              accepted settings kind (Json.toObject e) = Some r →
              CreateEmoteResult.id r ≠ id).
    { intros e r He. apply Hother. by apply list_elem_of_further. }
    destruct (accepted _ _ _) as [r|] eqn:Hacc; [|by eapply IH].
    destruct (cachedOrMake _ _ h) as [[ptr h1]|] eqn:Hc; [|done].
    destruct (assign _ _ _ _ h1) as [[emotes' h2]|] eqn:Hassign; [|done].
    apply assign_step in Hassign as (_ & _ & Hc2 & _).
    rewrite (IH _ _ Hrun Hrest), Hc2.
    destruct (cachedOrMake_cases (CreateEmoteResult.emote r)
                (CreateEmoteResult.id r) h)
      as [(q & _ & _ & Heq) | (_ & Heq)];
      rewrite Heq in Hc; injection Hc as <- <-; [done|].
    cbn [cache]. apply lookup_insert_ne.
    apply (Hother entry r); [apply list_elem_of_here | done].
Qed.

(** X16. What a build leaves behind: every record of the built collection
    is alive and is the entry the intern cache holds for its identifier,
    every object that was alive before the build still is, the heap stays
    well-formed, and the cache is changed only under identifiers of
    accepted entries of the batch. *)
Theorem parseEmotes_heap settings batch kind h m h' :
  heap_wf h →
  parseEmotes settings batch kind h = Ok (m, h') →
  heap_wf h' ∧
  live h ⊆ live h' ∧
  (∀ k p, m !! k = Some p →
     address p ∈ live h' ∧ cache h' !! Emote.id (pointee p) = Some p) ∧
  (∀ id,
     (∀ entry r, entry ∈ batch →
        accepted settings kind (Json.toObject entry) = Some r →
        CreateEmoteResult.id r ≠ id) →
     cache h' !! id = cache h !! id).
Proof.
  intros Hwf Hrun. unfold parseEmotes in Hrun. split_and!.
  - by eapply parseEmotes_loop_wf.
  - by apply (parseEmotes_loop_steps _ _ _ _ _ _ _ _ Hrun).
  - intros k p Hk.
    destruct (parseEmotes_loop_from_cache _ _ _ _ _ _ _ _ Hwf
                (from_cache_empty h) Hrun k p Hk).
    by split.
  - intros id Hother. by eapply parseEmotes_loop_cache_frame.
Qed.

Lemma two_builds_share settings kind1 kind2 batch1 batch2 h0 m1 h1 h2 m2 h2'
    k1 p1 k2 p2 :
  heap_wf h0 →
  parseEmotes settings batch1 kind1 h0 = Ok (m1, h1) →
  rtc step h1 h2 →
  parseEmotes settings batch2 kind2 h2 = Ok (m2, h2') →
  m1 !! k1 = Some p1 → m2 !! k2 = Some p2 →
  Emote.id (pointee p1) = Emote.id (pointee p2) →
  address p1 ∈ live h2 →
  p2 = p1.
Proof.
  intros Hwf Hb1 Hsteps Hb2 Hk1 Hk2 Hid Hlive.
  unfold parseEmotes in *.
  destruct (parseEmotes_loop_steps _ _ _ _ _ _ _ _ Hb1) as [Hs1 _].
  destruct (parseEmotes_loop_steps _ _ _ _ _ _ _ _ Hb2) as [Hs2 Hsub].
  specialize (Hsub (reflexivity _)).
  assert (Hwf1 : heap_wf h1) by (by eapply heap_wf_steps).
  assert (Hwf2 : heap_wf h2) by (by eapply heap_wf_steps).
  destruct (parseEmotes_loop_from_cache _ _ _ _ _ _ _ _ Hwf
              (from_cache_empty h0) Hb1 k1 p1 Hk1) as [Hc1 _].
  destruct (parseEmotes_loop_from_cache _ _ _ _ _ _ _ _ Hwf2
              (from_cache_empty h2) Hb2 k2 p2 Hk2) as [Hc2 _].
  assert (Hin : interned (Emote.id (pointee p1)) p1 h2').
  { eapply interned_steps; [|exact Hs2].
    eapply interned_steps; [|exact Hsteps].
    split; [|done]. destruct Hwf1 as [_ Hcache]. by destruct (Hcache _ _ Hc1). }
  destruct Hin as [_ Hin]. rewrite Hid, Hc2 in Hin.
  assert (Some p2 = Some p1) as [= ->]; [|done].
  apply Hin. by apply Hsub.
Qed.

(** X17. Building the same batch again, while the records of the first
    collection are still alive, yields the same collection: the same keys
    holding the same shared instances, whatever happened to the heap in
    between. *)
Theorem rebuild_same settings batch kind h0 m1 h1 h2 m2 h2' :
  heap_wf h0 →
  parseEmotes settings batch kind h0 = Ok (m1, h1) →
  rtc step h1 h2 →
  (∀ k p, m1 !! k = Some p → address p ∈ live h2) →
  parseEmotes settings batch kind h2 = Ok (m2, h2') →
  m2 = m1.
Proof.
  intros Hwf Hb1 Hsteps Halive Hb2. apply map_eq. intros k.
  assert (Hwf2 : heap_wf h2).
  { eapply heap_wf_steps; [|exact Hsteps].
    by eapply (parseEmotes_loop_wf _ _ _ _ _ _ _ _ Hwf Hb1). }
  destruct (last_named settings kind k batch)
    as [Hnone | (pre & e & post & r & -> & Hacc & Hname & Hlast)].
  - rewrite (parseEmotes_loop_untouched _ _ _ _ _ _ _ _ _ Hnone Hb1).
    by rewrite (parseEmotes_loop_untouched _ _ _ _ _ _ _ _ _ Hnone Hb2).
  - rewrite <- Hname in Hlast |- *.
    destruct (parseEmotes_loop_last _ _ _ _ _ _ _ _ _ _ _ Hwf Hb1 Hacc Hlast)
      as (p1 & Hp1 & Hid1).
    destruct (parseEmotes_loop_last _ _ _ _ _ _ _ _ _ _ _ Hwf2 Hb2 Hacc Hlast)
      as (p2 & Hp2 & Hid2).
    rewrite Hp1, Hp2. f_equal.
    apply (two_builds_share settings kind kind _ _ h0 m1 h1 h2 m2 h2'
             _ p1 _ p2 Hwf Hb1 Hsteps Hb2 Hp1 Hp2); [congruence|].
    by eapply Halive.
Qed.

(** ** Loading a channel, a set, the global set *)

Lemma connectionIdx_from_shift connections n :
  connectionIdx_from connections n = n + connectionIdx_from connections 0.
Proof.
  revert n. induction connections as [|conn rest IH]; intros n; simpl.
  - lia.
  - destruct (String.eqb _ "TWITCH"); [lia|].
    rewrite (IH (S n)), (IH 1). lia.
Qed.

(** X18. The connection index handed to the callback of a channel load is
    the position of the first connection whose platform is TWITCH: no
    connection before it is a TWITCH one, and when the user has no TWITCH
    connection at all the index is the number of connections, one past the
    last position. *)
Theorem connectionIdx_first connections :
  let idx := connectionIdx_from connections 0 in
  idx ≤ length connections ∧
  (∀ j conn, j < idx → connections !! j = Some conn →
     Json.toString (Json.value (Json.toObject conn) "platform") ≠ "TWITCH") ∧
  (idx < length connections →
   ∃ conn, connections !! idx = Some conn ∧
           Json.toString (Json.value (Json.toObject conn) "platform")
           = "TWITCH") ∧
  ((∀ conn, conn ∈ connections →
      Json.toString (Json.value (Json.toObject conn) "platform") ≠ "TWITCH") →
   idx = length connections).
Proof.
  induction connections as [|conn rest IH]; cbn [connectionIdx_from length].
  - split_and!; [done | intros; lia | intros; lia | done].
  - destruct (String.eqb_spec
                (Json.toString (Json.value (Json.toObject conn) "platform"))
                "TWITCH") as [Heq|Hne].
    + split_and!; [lia | intros; lia | by exists conn |].
      intros Hnone. destruct (Hnone conn); [apply list_elem_of_here | done].
    + rewrite connectionIdx_from_shift.
      destruct IH as (Hle & Hbefore & Hat & Hnone). split_and!.
      * simpl in *. lia.
      * intros [|j] c Hj Hc; simpl in Hc.
        -- by injection Hc as <-.
        -- apply (Hbefore j c); [simpl in *; lia | done].
      * intros Hlt. destruct Hat as (c & Hc & Hp); [simpl in *; lia|].
        by exists c.
      * intros Hall. rewrite Hnone; [done|].
        intros c Hc. apply Hall. by apply list_elem_of_further.
Qed.

Lemma connectionIdx_first_witness :
  connectionIdx_from
    [JObject [("platform", JString "DISCORD")];
     JObject [("platform", JString "YOUTUBE")]] 0 = 2.
Proof.
  apply (proj2 (proj2 (proj2 (connectionIdx_first
           [JObject [("platform", JString "DISCORD")];
            JObject [("platform", JString "YOUTUBE")]])))).
  intros conn [->|[->|Hin%elem_of_nil]%elem_of_cons]%elem_of_cons; done.
Defined.

Lemma parseEmotes_empty_iff settings batch kind h m h' :
  heap_wf h →
  parseEmotes settings batch kind h = Ok (m, h') →
  m = ∅ ↔
  ∀ entry, entry ∈ batch → accepted settings kind (Json.toObject entry) = None.
Proof.
  intros Hwf Hrun. split.
  - intros -> entry Hin.
    destruct (accepted settings kind (Json.toObject entry)) as [r|] eqn:Hacc;
      [|done].
    assert (Hkey : is_Some ((∅ : EmoteMap) !! CreateEmoteResult.name r)).
    { unfold parseEmotes in Hrun.
      destruct (last_named settings kind (CreateEmoteResult.name r) batch)
        as [Hnone | (pre & e & post & r' & -> & Hacc' & Hname & Hlast)].
      - by destruct (Hnone entry r Hin Hacc).
      - rewrite <- Hname in Hlast.
        destruct (parseEmotes_loop_last _ _ _ _ _ _ _ _ _ _ _ Hwf Hrun Hacc'
                    Hlast) as (p & Hp & _).
        rewrite <- Hname. by exists p. }
    destruct Hkey as [p Hp]. by rewrite lookup_empty in Hp.
  - intros Hall. apply map_eq. intros k. rewrite lookup_empty.
    unfold parseEmotes in Hrun.
    assert (Hnone : ∀ entry r, entry ∈ batch →
              accepted settings kind (Json.toObject entry) = Some r →
              CreateEmoteResult.name r ≠ k).
    { intros entry r Hin Hacc. by rewrite (Hall entry Hin) in Hacc. }
    rewrite (parseEmotes_loop_untouched _ _ _ _ _ _ _ _ k Hnone Hrun).
    apply lookup_empty.
Qed.

Lemma connectionIdx_from_position connections :
  connectionIdx_from connections 0 ≤ length connections ∧
  (connectionIdx_from connections 0 < length connections ↔
   ∃ conn, conn ∈ connections ∧
           Json.toString (Json.value (Json.toObject conn) "platform")
           = "TWITCH").
Proof.
  induction connections as [|conn rest [IHle IHlt]];
    cbn [connectionIdx_from length].
  - split; [done|]. split; [lia|]. by intros (conn & Hin%elem_of_nil & _).
  - destruct (String.eqb_spec
                (Json.toString (Json.value (Json.toObject conn) "platform"))
                "TWITCH") as [Heq|Hne].
    + split; [lia|]. split; [|lia]. intros _. exists conn.
      split; [apply list_elem_of_here | done].
    + rewrite connectionIdx_from_shift. split; [lia|]. split.
      * intros Hlt. destruct (proj1 IHlt) as (c & Hin & Hc); [lia|].
        exists c. split; [by apply list_elem_of_further | done].
      * intros (c & [-> | Hin]%elem_of_cons & Hc); [done|].
        assert (connectionIdx_from rest 0 < length rest); [|lia].
        apply IHlt. by exists c.
Qed.

(** X19. A channel load calls back exactly when the build stored something:
    with a collection in which at least one entry was accepted, never with
    an empty one, so a set whose entries are all rejected counts as no
    emotes. The callback gets the built collection, the identifiers of the
    user and of the set, and the connection index: the position of the
    first TWITCH connection, which is a position of the list exactly when
    the user has a TWITCH connection and is the number of connections, one
    past the last position, when there is none. A message is added only on
    a manual refresh with the channel still there: the reload notice when
    the callback was called, the no-emotes notice otherwise. *)
Theorem loadChannelEmotes_outcome settings json channelAlive manualRefresh h :
  let emoteSet := Json.toObject (Json.value json "emote_set") in
  let user := Json.toObject (Json.value json "user") in
  let emotes := Json.toArray (Json.value emoteSet "emotes") in
  let connections := Json.toArray (Json.value user "connections") in
  heap_wf h →
  ∃ called messages m h',
    loadChannelEmotes_onSuccess settings json channelAlive manualRefresh h
    = Ok ((called, messages), h') ∧
    parseEmotes settings emotes Channel h = Ok (m, h') ∧
    (called = None ↔
     ∀ entry, entry ∈ emotes →
              accepted settings Channel (Json.toObject entry) = None) ∧
    (∀ m' info, called = Some (m', info) →
       m' = m ∧ m ≠ ∅ ∧
       userID info = Json.toString (Json.value user "id") ∧
       emoteSetID info = Json.toString (Json.value emoteSet "id") ∧
       twitchConnectionIndex info = connectionIdx_from connections 0 ∧
       (twitchConnectionIndex info < length connections ↔
        ∃ conn, conn ∈ connections ∧
                Json.toString (Json.value (Json.toObject conn) "platform")
                = "TWITCH") ∧
       ((∀ conn, conn ∈ connections →
           Json.toString (Json.value (Json.toObject conn) "platform")
           ≠ "TWITCH") →
        twitchConnectionIndex info = length connections)) ∧
    (channelAlive = false ∨ manualRefresh = false → messages = []) ∧
    (channelAlive = true → manualRefresh = true →
     messages = [match called with
                 | Some _ => "7TV channel emotes reloaded."
                 | None => CHANNEL_HAS_NO_EMOTES
                 end]).
Proof.
  intros emoteSet user emotes connections Hwf.
  unfold loadChannelEmotes_onSuccess.
  fold emoteSet user. fold emotes connections. unfold mbind at 1.
  destruct (parseEmotes_loop_total settings Channel (live h) emotes ∅ h)
    as (m & h' & Hrun).
  change (parseEmotes settings emotes Channel h = Ok (m, h')) in Hrun.
  rewrite Hrun. cbv zeta. unfold mret.
  pose proof (parseEmotes_empty_iff _ _ _ _ _ _ Hwf Hrun) as Hempty.
  match goal with
  | |- context [Nat.eqb ?n 0] => destruct (Nat.eqb_spec n 0) as [Hz|Hnz]
  end; cbn [negb];
    (eexists _, _, m, h'; split; [reflexivity|]; split; [done|]).
  - apply map_size_empty_iff in Hz. split_and!.
    + split; [intros _; by apply Hempty | done].
    + done.
    + unfold reloadMessages. intros [-> | ->]; [done | by destruct channelAlive].
    + by intros -> ->.
  - assert (Hne : m ≠ ∅).
    { intros Hm. apply Hnz. by apply map_size_empty_iff. }
    destruct (connectionIdx_from_position connections) as [Hle Hlt].
    split_and!.
    + split; [done | intros Hall; by apply Hempty in Hall].
    + intros m' info [= <- <-]. cbn [userID emoteSetID twitchConnectionIndex].
      split_and!; [done | done | done | done | done | exact Hlt |].
      intros Hnone.
      destruct (Nat.lt_ge_cases (connectionIdx_from connections 0)
                  (length connections)) as [Hin|Hout]; [|lia].
      apply Hlt in Hin as (conn & Hin & Hp). by destruct (Hnone conn).
    + unfold reloadMessages. intros [-> | ->]; [done | by destruct channelAlive].
    + by intros -> ->.
Qed.

(** X20. What a failed channel load tells the user. With the channel gone
    nothing is said. A 404 is treated like a channel without emotes: the
    no-emotes notice on a manual refresh, silence otherwise, which are the
    messages of a successful load that stored nothing. Any other failure
    adds one message that carries the error text, manual refresh or not. *)
Theorem loadChannelEmotes_failure manualRefresh status errorString :
  loadChannelEmotes_onError false manualRefresh status errorString = [] ∧
  (∀ channelAlive,
     loadChannelEmotes_onError channelAlive manualRefresh (Some 404%Z)
       errorString
     = reloadMessages channelAlive manualRefresh false) ∧
  (status ≠ Some 404%Z →
   loadChannelEmotes_onError true manualRefresh status errorString
   = ["Failed to fetch 7TV channel emotes. (Error: " ++ errorString ++ ")"]).
Proof.
  split_and!.
  - done.
  - by intros [].
  - intros Hne. unfold loadChannelEmotes_onError. cbn [negb].
    destruct status as [[|p|p]|]; try done.
    do 9 (destruct p as [p|p|]; try done).
Qed.

Lemma loadChannelEmotes_failure_witness :
  loadChannelEmotes_onError true false (Some 500%Z) "timeout"
  = ["Failed to fetch 7TV channel emotes. (Error: timeout)"].
Proof.
  apply (proj2 (proj2 (loadChannelEmotes_failure false (Some 500%Z) "timeout"))).
  discriminate.
Defined.

(** X21. Loading an emote set builds it as a personal set when the set's
    flags say so and as a channel set otherwise, never as a global one. In
    a set flagged personal every stored record comes from an entry tagged
    PERSONAL; the callback gets the set's name and is called with an empty
    collection as well. *)
Theorem getEmoteSet_outcome settings json h :
  let emotes := Json.toArray (Json.value json "emotes") in
  let flagged := has_PersonalSet (Json.toInt (Json.value json "flags") 0) in
  ∃ m h',
    getEmoteSet_onSuccess settings json h
    = Ok ((m, Json.toString (Json.value json "name")), h') ∧
    parseEmotes settings emotes (if flagged then Personal else Channel) h
    = Ok (m, h') ∧
    (flagged = true →
     ∀ k p, m !! k = Some p →
       ∃ entry, entry ∈ emotes ∧ entry_name (Json.toObject entry) = k ∧
                Json.contains
                  (Json.toArray
                     (Json.value (entry_data (Json.toObject entry)) "state"))
                  "PERSONAL" = true).
Proof.
  intros emotes flagged. unfold getEmoteSet_onSuccess, getEmoteSet_kind.
  fold emotes flagged. unfold mbind.
  destruct (parseEmotes_loop_total settings
              (if flagged then Personal else Channel) (live h) emotes ∅ h)
    as (m & h' & Hrun).
  change (parseEmotes settings emotes (if flagged then Personal else Channel) h
          = Ok (m, h')) in Hrun.
  rewrite Hrun. exists m, h'. split; [reflexivity|]. split; [done|].
  intros Hflag k p Hk. rewrite Hflag in Hrun. unfold parseEmotes in Hrun.
  destruct (parseEmotes_loop_stored _ _ _ _ _ _ _ _ Hrun k p Hk)
    as [Hempty | (entry & r & Hin & Hacc & Hname)].
  { by rewrite lookup_empty in Hempty. }
  destruct (accepted_names _ _ _ _ Hacc) as (Hn & _).
  apply accepted_Some in Hacc as (_ & Hvis & _).
  apply checkEmoteVisibility_true in Hvis as (_ & Hpersonal & _).
  exists entry. split_and!; [done | congruence | by apply Hpersonal].
Qed.

(** X22. After a successful load of the global set, the lookup of a global
    emote by name finds a record for the display name of every accepted
    entry and nothing for any other name; the set is built with the kind
    Global and published in a fresh cell. *)
Theorem globalEmote_after_load settings json h :
  let emotes := Json.toArray (Json.value json "emotes") in
  heap_wf h →
  ∃ global_ h',
    loadGlobalEmotes_onSuccess settings json h = Ok (global_, h') ∧
    (address global_ ∉ live h) ∧
    (∀ entry r,
       entry ∈ emotes →
       accepted settings Global (Json.toObject entry) = Some r →
       is_Some (globalEmote global_ (CreateEmoteResult.name r))) ∧
    (∀ name,
       (∀ entry r, entry ∈ emotes →
          accepted settings Global (Json.toObject entry) = Some r →
          CreateEmoteResult.name r ≠ name) →
       globalEmote global_ name = None).
Proof.
  intros emotes Hwf. unfold loadGlobalEmotes_onSuccess. fold emotes.
  unfold mbind, make_shared.
  destruct (parseEmotes_loop_total settings Global (live h) emotes ∅ h)
    as (m & h1 & Hrun).
  change (parseEmotes settings emotes Global h = Ok (m, h1)) in Hrun.
  rewrite Hrun. eexists _, _. split; [reflexivity|].
  unfold globalEmote. cbn [address pointee].
  unfold parseEmotes in Hrun. split_and!.
  - destruct (parseEmotes_loop_steps _ _ _ _ _ _ _ _ Hrun) as [Hsteps _].
    pose proof (parseEmotes_loop_wf _ _ _ _ _ _ _ _ Hwf Hrun) as [Hlive1 _].
    intros Hin.
    assert (Hmono : next_address h ≤ next_address h1).
    { clear -Hsteps. induction Hsteps as [|x y z Hstep _ IH]; [done|].
      etrans; [|exact IH]. destruct Hstep as [e p x y Hc|T v p x y Hc|a x].
      - destruct (cachedOrMake_cases e (Emote.id e) x)
          as [(q & _ & _ & Heq) | (_ & Heq)];
          rewrite Heq in Hc; injection Hc as <- <-; simpl; lia.
      - injection Hc as <- <-. simpl. lia.
      - done. }
    destruct Hwf as [Hlive _]. specialize (Hlive _ Hin). lia.
  - intros entry r Hin Hacc.
    destruct (last_named settings Global (CreateEmoteResult.name r) emotes)
      as [Hnone | (pre & e & post & r' & Hsplit & Hacc' & Hname & Hlast)].
    + by destruct (Hnone entry r Hin Hacc).
    + rewrite Hsplit in Hrun. rewrite <- Hname in Hlast.
      destruct (parseEmotes_loop_last _ _ _ _ _ _ _ _ _ _ _ Hwf Hrun Hacc'
                  Hlast) as (p & Hp & _).
      rewrite <- Hname. by exists p.
  - intros name Hnone.
    rewrite (parseEmotes_loop_untouched _ _ _ _ _ _ _ _ name Hnone Hrun).
    apply lookup_empty.
Qed.
(** ** Malformed entries *)





End Flags.

(** ** The statements at sample inputs *)


(** The amended C4 at a sample: the same identifier is materialized twice
    on a fresh heap. *)
Lemma intern_cache_dedup_witness :
  ∃ p h1,
    cachedOrMake sample_alias "1" empty_heap = Ok (p, h1) ∧
    cachedOrMake sample_alias "1" h1 = Ok (p, h1).
Proof.
  eexists _, _. split; [reflexivity|].
  eapply (proj1 (intern_cache_dedup sample_has_ZeroWidth
                  sample_has_ContentTwitchDisallowed)
           empty_heap sample_alias "1" _ _ _ sample_alias).
  - split; simpl.
    + intros a ->%elem_of_singleton. lia.
    + intros id p Hp. by rewrite lookup_empty in Hp.
  - reflexivity.
  - apply rtc_refl.
  - simpl. apply elem_of_union. left. by apply elem_of_singleton.
Defined.

(** C4 fails as written for Add. A build materializes the emote 1; while
    that record is live, Add of the same entry returns a record with the
    same contents at another address. *)
Lemma add_allocates_afresh :
  ∃ m1 h1 p1 p2 published h2,
    parseEmotes sample_has_ZeroWidth sample_has_ContentTwitchDisallowed
      sample_settings [JObject (sample_entry "1" "pog" "poggers")] Channel
      empty_heap = Ok (m1, h1) ∧
    m1 !! "pog" = Some p1 ∧
    address p1 ∈ live h1 ∧
    addEmote sample_has_ZeroWidth sample_has_ContentTwitchDisallowed
      sample_settings empty_cell
      (EmoteAddDispatch.mk (sample_entry "1" "pog" "poggers")) Channel h1
    = Ok ((Some p2, published), h2) ∧
    Emote.id (pointee p2) = Emote.id (pointee p1) ∧
    pointee p2 = pointee p1 ∧
    p2 ≠ p1.
Proof.
  eexists _, _, _, _, _, _.
  split; [vm_compute; reflexivity|].
  split; [vm_compute; reflexivity|].
  split; [vm_compute; reflexivity|].
  split; [vm_compute; reflexivity|].
  split; [reflexivity|]. split; [reflexivity|]. discriminate.
Qed.

(** C5 at samples: an unlisted entry, an entry without files, and a lookup
    that misses. *)
Lemma no_change_paths_witness :
  addEmote sample_has_ZeroWidth sample_has_ContentTwitchDisallowed
    sample_settings sample_cell
    (EmoteAddDispatch.mk [("id", JString "2"); ("name", JString "kek");
                          ("data", JObject [("name", JString "kek")])])
    Channel sample_heap = Ok ((None, sample_cell), sample_heap)
  ∧ addEmote sample_has_ZeroWidth sample_has_ContentTwitchDisallowed
      sample_settings sample_cell
      (EmoteAddDispatch.mk [("id", JString "2"); ("name", JString "kek");
                            ("data", JObject [("name", JString "kek");
                                              ("listed", JBool true)])])
      Channel sample_heap = Ok ((None, sample_cell), sample_heap)
  ∧ updateEmote sample_cell (EmoteUpdateDispatch.mk "2" "kek") Channel
      sample_heap = Ok ((None, sample_cell), sample_heap)
  ∧ removeEmote sample_cell (EmoteRemoveDispatch.mk "2" "kek") sample_heap
    = Ok ((None, sample_cell), sample_heap).
Proof.
  pose proof (no_change_paths sample_has_ZeroWidth
                sample_has_ContentTwitchDisallowed sample_settings sample_cell
                Channel sample_heap) as (_ & Hvis & Himg & Hupd & Hrem).
  assert (Hids : ∀ k p, pointee sample_cell !! k = Some p →
                        Emote.id (pointee p) ≠ "2").
  { intros k p Hk. unfold sample_cell in Hk. cbn [pointee] in Hk.
    apply lookup_insert_Some in Hk as [[_ <-] | [_ Hk]]; [done|].
    by rewrite lookup_empty in Hk. }
  split_and!.
  - apply Hvis. reflexivity.
  - eapply Himg; reflexivity.
  - apply Hupd; [reflexivity | exact Hids].
  - apply Hrem; [reflexivity | exact Hids].
Defined.

(** C7 at a sample: the round trip on the empty collection. *)
Lemma alias_round_trip_witness :
  ∃ p1 c1 h1 p2 c2 h2 p3 c3 h3,
    addEmote sample_has_ZeroWidth sample_has_ContentTwitchDisallowed
      sample_settings empty_cell
      (EmoteAddDispatch.mk (sample_entry "1" "pog" "poggers")) Channel
      empty_heap = Ok ((Some p1, c1), h1) ∧
    Emote.name (pointee p1) = "pog" ∧
    Emote.baseName (pointee p1) = Some "poggers" ∧
    updateEmote c1
      (EmoteUpdateDispatch.mk (entry_id (sample_entry "1" "pog" "poggers"))
         "poggers") Channel h1
    = Ok ((Some p2, c2), h2) ∧
    Emote.name (pointee p2) = "poggers" ∧
    Emote.baseName (pointee p2) = None ∧
    Emote.tooltip (pointee p2)
    = createTooltip "poggers" (Emote.author (pointee p1)) Channel ∧
    updateEmote c2
      (EmoteUpdateDispatch.mk (entry_id (sample_entry "1" "pog" "poggers"))
         "pog2") Channel h2
    = Ok ((Some p3, c3), h3) ∧
    Emote.name (pointee p3) = "pog2" ∧
    Emote.baseName (pointee p3) = Some "poggers".
Proof.
  apply (alias_round_trip sample_has_ZeroWidth
           sample_has_ContentTwitchDisallowed sample_settings Channel
           (sample_entry "1" "pog" "poggers") empty_cell empty_heap).
  - reflexivity.
  - reflexivity.
  - eexists. vm_compute. reflexivity.
  - reflexivity.
  - reflexivity.
  - intros k p Hk. unfold empty_cell in Hk. cbn [pointee] in Hk.
    by rewrite lookup_empty in Hk.
Defined.

(** C8 at a sample: a batch of an accepted entry and one without metadata,
    built on the heap of a process that has just started. *)
Lemma parseEmotes_stores_accepted_witness :
  ∃ m h',
    parseEmotes sample_has_ZeroWidth sample_has_ContentTwitchDisallowed
      sample_settings
      [JObject (sample_entry "1" "pog" "poggers"); JObject [("id", JString "2")]]
      Channel empty_heap = Ok (m, h') ∧
    (∀ k p, m !! k = Some p → has_image1 (pointee p)) ∧
    parseEmotes sample_has_ZeroWidth sample_has_ContentTwitchDisallowed
      sample_settings [JObject (sample_entry "1" "pog" "poggers")]
      Channel empty_heap = Ok (m, h').
Proof.
  destruct (parseEmotes sample_has_ZeroWidth sample_has_ContentTwitchDisallowed
              sample_settings
              [JObject (sample_entry "1" "pog" "poggers");
               JObject [("id", JString "2")]] Channel empty_heap)
    as [[m h']|e] eqn:Hrun; [|vm_compute in Hrun; discriminate Hrun].
  destruct (parseEmotes_stores_accepted sample_has_ZeroWidth
              sample_has_ContentTwitchDisallowed _ _ _ _ _ _ Hrun)
    as (_ & Himages & Hskip).
  exists m, h'. split_and!; [reflexivity | |].
  - apply Himages. intros id p Hp. simpl in Hp. by rewrite lookup_empty in Hp.
  - apply (Hskip [JObject (sample_entry "1" "pog" "poggers")]
             (JObject [("id", JString "2")]) []).
    + reflexivity.
    + left. reflexivity.
Defined.



(** C10 at a sample: Add under a name that is already present. *)
Lemma published_frame_witness :
  ∃ emote published h',
    addEmote sample_has_ZeroWidth sample_has_ContentTwitchDisallowed
      sample_settings sample_cell
      (EmoteAddDispatch.mk (sample_entry "2" "pog" "pog")) Channel sample_heap
    = Ok ((Some emote, published), h') ∧
    pointee published !! "pog" = Some emote ∧
    address emote = 2 ∧
    size (pointee published) = size (pointee sample_cell).
Proof.
  destruct (addEmote sample_has_ZeroWidth sample_has_ContentTwitchDisallowed
              sample_settings sample_cell
              (EmoteAddDispatch.mk (sample_entry "2" "pog" "pog")) Channel
              sample_heap) as [[[[emote|] published] h']|e] eqn:Hrun;
    [|vm_compute in Hrun; discriminate Hrun..].
  destruct (proj1 (published_frame sample_has_ZeroWidth
                     sample_has_ContentTwitchDisallowed sample_settings
                     sample_cell Channel sample_heap) _ _ _ _ Hrun)
    as (Hnew & Haddr & _ & Hsize).
  assert (Hname : Emote.name (pointee emote) = "pog").
  { vm_compute in Hrun. by injection Hrun as <- _ _. }
  rewrite Hname in Hnew, Hsize.
  exists emote, published, h'. split_and!; [done | done | done |].
  apply Hsize. eexists. reflexivity.
Defined.

(** ** The further statements at sample inputs *)

Lemma empty_heap_wf : heap_wf empty_heap.
Proof.
  split; simpl.
  - intros a ->%elem_of_singleton. lia.
  - intros id p Hp. by rewrite lookup_empty in Hp.
Qed.

Lemma sample_heap_wf : heap_wf sample_heap.
Proof.
  split; simpl.
  - intros a [->%elem_of_singleton | ->%elem_of_singleton]%elem_of_union; lia.
  - intros id p Hp. by rewrite lookup_empty in Hp.
Qed.

(** X3 at a sample: the entry with one WEBP file has images. *)
Lemma createEmote_hasImages_witness :
  ∃ r,
    createEmote sample_has_ZeroWidth sample_settings
      (sample_entry "1" "pog" "poggers")
      (entry_data (sample_entry "1" "pog" "poggers")) Channel = Ok r ∧
    CreateEmoteResult.hasImages r = true.
Proof.
  destruct (createEmote_hasImages sample_has_ZeroWidth sample_settings
              (sample_entry "1" "pog" "poggers")
              (entry_data (sample_entry "1" "pog" "poggers")) Channel)
    as (r & Hr & Hiff).
  exists r. split; [exact Hr|]. apply Hiff. vm_compute. discriminate.
Defined.

(** X4 at a sample: with three WEBP files the largest variant is the
    third. *)
Lemma largest_variant_witness :
  ∃ s scale,
    createImageSet false variant_fallback = Ok s ∧
    getImage3 s
    = file_image EmptyString (Json.toObject (sample_file "WEBP" 3)) scale.
Proof.
  destruct (largest_variant false variant_fallback)
    as (s & Hs & _ & _ & Hthree & _).
  destruct (Hthree (Json.toObject (sample_file "WEBP" 3)))
    as (scale & Hscale); [reflexivity | reflexivity |].
  exists s, scale. split; [exact Hs | exact Hscale].
Defined.

(** X6 at a sample: the alias pog of poggers is not an alias of itself. *)
Lemma createEmote_consistent_witness :
  ∃ r,
    createEmote sample_has_ZeroWidth sample_settings
      (sample_entry "1" "pog" "poggers")
      (entry_data (sample_entry "1" "pog" "poggers")) Channel = Ok r ∧
    Emote.baseName (CreateEmoteResult.emote r)
    ≠ Some (Emote.name (CreateEmoteResult.emote r)).
Proof.
  destruct (createEmote_consistent sample_has_ZeroWidth sample_settings
              (sample_entry "1" "pog" "poggers")
              (entry_data (sample_entry "1" "pog" "poggers")) Channel)
    as (r & Hr & _ & Hbase & _).
  exists r. split; [exact Hr|].
  intros Heq. by destruct (Hbase _ Heq).
Defined.

(** X10 at a sample: an emote tagged PERSONAL, seen in a channel set. *)
Lemma checkEmoteVisibility_monotone_witness :
  checkEmoteVisibility sample_has_ContentTwitchDisallowed
    (mkSettings true false)
    [("listed", JBool true); ("state", JArray [JString "PERSONAL"])] Channel
  = true.
Proof.
  apply (proj1 (proj2 (checkEmoteVisibility_monotone
           sample_has_ContentTwitchDisallowed
           [("listed", JBool true); ("state", JArray [JString "PERSONAL"])]
           false true false))).
  reflexivity.
Defined.

(** X12 at a sample: Add on the empty collection, then Remove of the
    added emote. *)
Lemma add_then_remove_witness :
  ∃ emote c1 h1 c2 h2,
    addEmote sample_has_ZeroWidth sample_has_ContentTwitchDisallowed
      sample_settings empty_cell
      (EmoteAddDispatch.mk (sample_entry "1" "pog" "poggers")) Channel
      empty_heap = Ok ((Some emote, c1), h1) ∧
    removeEmote c1
      (EmoteRemoveDispatch.mk (Emote.id (pointee emote))
         (Emote.name (pointee emote))) h1
    = Ok ((Some emote, c2), h2) ∧
    pointee c2 = pointee empty_cell.
Proof.
  destruct (addEmote sample_has_ZeroWidth sample_has_ContentTwitchDisallowed
              sample_settings empty_cell
              (EmoteAddDispatch.mk (sample_entry "1" "pog" "poggers")) Channel
              empty_heap) as [[[[emote|] c1] h1]|e] eqn:Hrun;
    [|vm_compute in Hrun; discriminate Hrun..].
  destruct (add_then_remove sample_has_ZeroWidth
              sample_has_ContentTwitchDisallowed sample_settings empty_cell
              _ Channel empty_heap emote c1 h1 Hrun)
    as (c2 & h2 & Hremove & Hsame).
  { apply lookup_empty. }
  exists emote, c1, h1, c2, h2. split_and!; [reflexivity | exact Hremove | exact Hsame].
Defined.

(** X13 at a sample: the alias pog is renamed to the free name pog2. *)
Lemma update_size_witness :
  ∃ emote published h',
    updateEmote sample_cell (EmoteUpdateDispatch.mk "1" "pog2") Channel
      sample_heap = Ok ((Some emote, published), h') ∧
    size (pointee published) = size (pointee sample_cell) ∧
    pointee published !! "pog2" = Some emote ∧
    pointee published !! "pog" = None.
Proof.
  destruct (update_size sample_cell (EmoteUpdateDispatch.mk "1" "pog2") Channel
              sample_heap "pog" (mk_shared 0 sample_alias))
    as (emote & published & h' & Hrun & Hsize & Hnew & Hold).
  - vm_compute. reflexivity.
  - reflexivity.
  - right. reflexivity.
  - exists emote, published, h'. split_and!; [exact Hrun | exact Hsize | exact Hnew |].
    apply Hold. discriminate.
Defined.

(** X14 at a sample: the only record is removed. *)
Lemma add_remove_size_witness :
  ∃ emote published h',
    removeEmote sample_cell (EmoteRemoveDispatch.mk "1" "pog") sample_heap
    = Ok ((Some emote, published), h') ∧
    S (size (pointee published)) = size (pointee sample_cell).
Proof.
  destruct (removeEmote sample_cell (EmoteRemoveDispatch.mk "1" "pog")
              sample_heap) as [[[[emote|] published] h']|e] eqn:Hrun;
    [|vm_compute in Hrun; discriminate Hrun..].
  exists emote, published, h'. split; [reflexivity|].
  apply (proj2 (add_remove_size sample_has_ZeroWidth
                  sample_has_ContentTwitchDisallowed sample_settings
                  sample_cell Channel sample_heap) _ _ _ _ Hrun).
Defined.

(** X15 at a sample: the accepted entry is found under its display name. *)
Lemma parseEmotes_keys_witness :
  ∃ m h',
    parseEmotes sample_has_ZeroWidth sample_has_ContentTwitchDisallowed
      sample_settings [JObject (sample_entry "1" "pog" "poggers")] Channel
      empty_heap = Ok (m, h') ∧
    is_Some (m !! "pog").
Proof.
  destruct (parseEmotes sample_has_ZeroWidth sample_has_ContentTwitchDisallowed
              sample_settings [JObject (sample_entry "1" "pog" "poggers")]
              Channel empty_heap) as [[m h']|e] eqn:Hrun;
    [|vm_compute in Hrun; discriminate Hrun].
  destruct (accepted sample_has_ZeroWidth sample_has_ContentTwitchDisallowed
              sample_settings Channel
              (Json.toObject (JObject (sample_entry "1" "pog" "poggers"))))
    as [r|] eqn:Hacc; [|vm_compute in Hacc; discriminate Hacc].
  assert (Hname : CreateEmoteResult.name r = "pog").
  { vm_compute in Hacc. by injection Hacc as <-. }
  exists m, h'. split; [reflexivity|]. rewrite <- Hname.
  apply (proj1 (parseEmotes_keys sample_has_ZeroWidth
                  sample_has_ContentTwitchDisallowed sample_settings _ Channel
                  empty_heap m h' empty_heap_wf Hrun)
           (JObject (sample_entry "1" "pog" "poggers")) r);
    [apply list_elem_of_here | exact Hacc].
Defined.

(** X16 at a sample: a one-entry build on a fresh heap. *)
Lemma parseEmotes_heap_witness :
  ∃ m h',
    parseEmotes sample_has_ZeroWidth sample_has_ContentTwitchDisallowed
      sample_settings [JObject (sample_entry "1" "pog" "poggers")] Channel
      empty_heap = Ok (m, h') ∧
    heap_wf h' ∧ live empty_heap ⊆ live h'.
Proof.
  destruct (parseEmotes sample_has_ZeroWidth sample_has_ContentTwitchDisallowed
              sample_settings [JObject (sample_entry "1" "pog" "poggers")]
              Channel empty_heap) as [[m h']|e] eqn:Hrun;
    [|vm_compute in Hrun; discriminate Hrun].
  destruct (parseEmotes_heap sample_has_ZeroWidth
              sample_has_ContentTwitchDisallowed sample_settings _ Channel
              empty_heap m h' empty_heap_wf Hrun) as (Hwf & Hlive & _).
  exists m, h'. split_and!; [reflexivity | exact Hwf | exact Hlive].
Defined.

(** X17 at a sample: the same one-entry batch built twice in a row. *)
Lemma rebuild_same_witness :
  ∃ m1 h1 m2 h2,
    parseEmotes sample_has_ZeroWidth sample_has_ContentTwitchDisallowed
      sample_settings [JObject (sample_entry "1" "pog" "poggers")] Channel
      empty_heap = Ok (m1, h1) ∧
    parseEmotes sample_has_ZeroWidth sample_has_ContentTwitchDisallowed
      sample_settings [JObject (sample_entry "1" "pog" "poggers")] Channel
      h1 = Ok (m2, h2) ∧
    m2 = m1.
Proof.
  destruct (parseEmotes sample_has_ZeroWidth sample_has_ContentTwitchDisallowed
              sample_settings [JObject (sample_entry "1" "pog" "poggers")]
              Channel empty_heap) as [[m1 h1]|e] eqn:Hrun1;
    [|vm_compute in Hrun1; discriminate Hrun1].
  destruct (parseEmotes_loop_total sample_has_ZeroWidth
              sample_has_ContentTwitchDisallowed sample_settings Channel
              (live h1) [JObject (sample_entry "1" "pog" "poggers")] ∅ h1)
    as (m2 & h2 & Hrun2).
  exists m1, h1, m2, h2. split_and!; [reflexivity | exact Hrun2 |].
  apply (rebuild_same sample_has_ZeroWidth sample_has_ContentTwitchDisallowed
           sample_settings _ Channel empty_heap m1 h1 h1 m2 h2 empty_heap_wf
           Hrun1 (rtc_refl _ _)); [|exact Hrun2].
  intros k p Hk.
  by destruct (parseEmotes_loop_from_cache _ _ _ _ _ _ _ _ _ _
                 empty_heap_wf (from_cache_empty empty_heap) Hrun1 k p Hk).
Defined.

(** X19 at a sample: a manual refresh of a channel with one emote, whose
    user has the TWITCH connection in second place. *)
Lemma loadChannelEmotes_outcome_witness :
  ∃ called messages h',
    loadChannelEmotes_onSuccess sample_has_ZeroWidth
      sample_has_ContentTwitchDisallowed sample_settings
      (sample_user_json [JObject (sample_entry "1" "pog" "poggers")])
      true true empty_heap = Ok ((called, messages), h') ∧
    (∀ m' info, called = Some (m', info) →
       twitchConnectionIndex info = 1 ∧ userID info = "user1"
       ∧ emoteSetID info = "set1") ∧
    messages = [match called with
                | Some _ => "7TV channel emotes reloaded."
                | None => CHANNEL_HAS_NO_EMOTES
                end].
Proof.
  destruct (loadChannelEmotes_outcome sample_has_ZeroWidth
              sample_has_ContentTwitchDisallowed sample_settings
              (sample_user_json [JObject (sample_entry "1" "pog" "poggers")])
              true true empty_heap empty_heap_wf)
    as (called & messages & m & h' & Hrun & _ & _ & Hinfo & _ & Hmsg).
  exists called, messages, h'. split_and!; [exact Hrun | | by apply Hmsg].
  intros m' info Hcalled.
  destruct (Hinfo m' info Hcalled) as (_ & _ & Hu & Hs & Hidx & _).
  split_and!; [exact Hidx | exact Hu | exact Hs].
Defined.

(** X21 at a sample: a set flagged personal. *)
Lemma getEmoteSet_outcome_witness :
  ∃ m h',
    getEmoteSet_onSuccess sample_has_ZeroWidth
      sample_has_ContentTwitchDisallowed sample_has_PersonalSet
      sample_settings
      [("name", JString "mine"); ("flags", JDouble 4);
       ("emotes", JArray [JObject (sample_entry "1" "pog" "poggers")])]
      empty_heap = Ok ((m, "mine"), h') ∧
    ∀ k p, m !! k = Some p →
      ∃ entry,
        entry ∈ [JObject (sample_entry "1" "pog" "poggers")] ∧
        entry_name (Json.toObject entry) = k ∧
        Json.contains
          (Json.toArray (Json.value (entry_data (Json.toObject entry)) "state"))
          "PERSONAL" = true.
Proof.
  destruct (getEmoteSet_outcome sample_has_ZeroWidth
              sample_has_ContentTwitchDisallowed sample_has_PersonalSet
              sample_settings
              [("name", JString "mine"); ("flags", JDouble 4);
               ("emotes", JArray [JObject (sample_entry "1" "pog" "poggers")])]
              empty_heap) as (m & h' & Hrun & _ & Hpersonal).
  exists m, h'. split; [exact Hrun|]. apply Hpersonal. reflexivity.
Defined.

(** X22 at a sample: the global set with one emote. *)
Lemma globalEmote_after_load_witness :
  ∃ global_ h',
    loadGlobalEmotes_onSuccess sample_has_ZeroWidth
      sample_has_ContentTwitchDisallowed sample_settings
      [("emotes", JArray [JObject (sample_entry "1" "pog" "poggers")])]
      empty_heap = Ok (global_, h') ∧
    globalEmote global_ "kek" = None.
Proof.
  destruct (globalEmote_after_load sample_has_ZeroWidth
              sample_has_ContentTwitchDisallowed sample_settings
              [("emotes", JArray [JObject (sample_entry "1" "pog" "poggers")])]
              empty_heap empty_heap_wf)
    as (global_ & h' & Hrun & _ & _ & Hnone).
  exists global_, h'. split; [exact Hrun|]. apply Hnone.
  intros entry r ->%list_elem_of_singleton Hacc.
  vm_compute in Hacc. injection Hacc as <-. discriminate.
Defined.
